(** * lls: a directory lister (lls/lls.cpp)

    A shallow embedding of [ParseArguments], [GetConsoleWidth], [ListFiles]
    and [main], followed by the properties of the argument parser, the entry
    sorter and the four text layouts.

    Conventions of the embedding:
    - [int] values are integers of [Z] with the 32-bit wrap-around written
      out ([to_int]); [/] and [%] are partial ([int_div], [int_rem]) and a
      division by zero makes the caller return [None];
    - [std::cout] and [std::cerr] are the two text fields of [Streams], which
      every procedure threads through;
    - a call of the filesystem library that can throw returns a [Result]:
      [inl e] when it throws the [filesystem_error] [e], [inr v] when it
      returns [v]. Inside [ListFiles] the exception is caught by the handler
      of line 183; in [ParseArguments] and [main] nothing catches it and the
      process is terminated;
    - a [directory_entry] records what the queries on the entry do during
      the run ([filename], [is_directory], [file_size], [last_write_time]);
      the type of an entry is the one cached by the directory iteration;
    - [std::left] is set in grid mode only, which returns before any other
      layout runs, so the long listing pads on the left;
    - everything the operating system and the C++ library decide is taken
      from a [World] (the file system, the console window, the clocks and
      [localtime_s]) and from a [StdSort] ([std::sort] with what the
      standard says about it); [libstdcxx_sort] is the algorithm of the GNU
      library. *)

From Stdlib Require Import ZArith NArith List Bool Lia.
From Stdlib Require Import Permutation Sorted.
From Stdlib Require Import Ascii String DecimalString.
Import ListNotations.

Local Open Scope string_scope.
Local Open Scope Z_scope.

(* ================================================================== *)
(** ** Machine integers *)

Definition int_min : Z := - 2 ^ 31.
Definition int_max : Z := 2 ^ 31 - 1.

(** Conversion to [int]: reduction modulo 2^32 into [int_min..int_max]. *)
Definition to_int (z : Z) : Z := (z + 2 ^ 31) mod 2 ^ 32 - 2 ^ 31.

(** [a / b] on [int]: truncation toward zero, undefined for [b = 0]. *)
Definition int_div (a b : Z) : option Z :=
  if b =? 0 then None else Some (to_int (Z.quot a b)).

(** [a % b] on [int]: the sign follows the dividend, undefined for [b = 0]. *)
Definition int_rem (a b : Z) : option Z :=
  if b =? 0 then None else Some (Z.rem a b).

(* ================================================================== *)
(** ** Text and stream formatting *)

Definition endl : string := String "010"%char EmptyString.

Fixpoint spaces (n : nat) : string :=
  match n with
  | O => EmptyString
  | S k => String " "%char (spaces k)
  end.

(** Number of fill characters [operator<<] adds under [setw(width)]. *)
Definition fill_count (width : Z) (s : string) : nat :=
  Z.to_nat (width - Z.of_nat (String.length s)).

(** [setw(width) << std::left << s]. *)
Definition setw_left (width : Z) (s : string) : string :=
  s ++ spaces (fill_count width s).

(** [setw(width) << s] with the stream's initial (right) adjustment. *)
Definition setw_right (width : Z) (s : string) : string :=
  spaces (fill_count width s) ++ s.

(** [operator<<] on an unsigned integer: decimal digits. *)
Definition decimal (n : N) : string := NilEmpty.string_of_uint (N.to_uint n).

(** [operator<<] on a signed integer. *)
Definition decimal_Z (z : Z) : string := NilEmpty.string_of_int (Z.to_int z).

Definition digit (z : Z) : ascii := ascii_of_nat (48 + Z.to_nat z).

(** A two-digit, zero-padded field of [std::put_time] (%m %d %H %M %S). *)
Definition two_digits (z : Z) : string :=
  String (digit (z / 10)) (String (digit (z mod 10)) EmptyString).

Record tm : Type := mk_tm {
  tm_sec : Z;
  tm_min : Z;
  tm_hour : Z;
  tm_mday : Z;
  tm_mon : Z;
  tm_year : Z
}.

(** [std::put_time(&timeInfo, "%Y-%m-%d %H:%M:%S")]. *)
Definition put_time (t : tm) : string :=
  decimal_Z (1900 + tm_year t) ++ "-" ++ two_digits (tm_mon t + 1) ++ "-"
  ++ two_digits (tm_mday t) ++ " " ++ two_digits (tm_hour t) ++ ":"
  ++ two_digits (tm_min t) ++ ":" ++ two_digits (tm_sec t).

(** The two output streams of the process. *)
Record Streams : Type := mk_streams {
  cout : string;
  cerr : string
}.

Definition no_output : Streams := {| cout := ""; cerr := "" |}.

Definition put_out (s : string) (io : Streams) : Streams :=
  {| cout := cout io ++ s; cerr := cerr io |}.

Definition put_err (s : string) (io : Streams) : Streams :=
  {| cout := cout io; cerr := cerr io ++ s |}.

(* ================================================================== *)
(** ** Options, entries and the outside world *)

Record LsOptions : Type := mk_options {
  longListing : bool;
  directoriesOnly : bool;
  sortByTime : bool;
  sortBySize : bool;
  oneColumn : bool;
  multiColumn : bool;
  directory : string
}.

(** The member initialisers of [struct LsOptions]. *)
Definition default_options : LsOptions :=
  {| longListing := false; directoriesOnly := false; sortByTime := false;
     sortBySize := false; oneColumn := false; multiColumn := false;
     directory := "." |}.

Definition set_longListing (o : LsOptions) : LsOptions :=
  mk_options true (directoriesOnly o) (sortByTime o) (sortBySize o)
             (oneColumn o) (multiColumn o) (directory o).
Definition set_directoriesOnly (o : LsOptions) : LsOptions :=
  mk_options (longListing o) true (sortByTime o) (sortBySize o)
             (oneColumn o) (multiColumn o) (directory o).
Definition set_sortByTime (o : LsOptions) : LsOptions :=
  mk_options (longListing o) (directoriesOnly o) true (sortBySize o)
             (oneColumn o) (multiColumn o) (directory o).
Definition set_sortBySize (o : LsOptions) : LsOptions :=
  mk_options (longListing o) (directoriesOnly o) (sortByTime o) true
             (oneColumn o) (multiColumn o) (directory o).
Definition set_oneColumn (o : LsOptions) : LsOptions :=
  mk_options (longListing o) (directoriesOnly o) (sortByTime o) (sortBySize o)
             true (multiColumn o) (directory o).
Definition set_multiColumn (o : LsOptions) : LsOptions :=
  mk_options (longListing o) (directoriesOnly o) (sortByTime o) (sortBySize o)
             (oneColumn o) true (directory o).
Definition set_directory (d : string) (o : LsOptions) : LsOptions :=
  mk_options (longListing o) (directoriesOnly o) (sortByTime o) (sortBySize o)
             (oneColumn o) (multiColumn o) d.

(** The parts of an [fs::filesystem_error] that [what()] is built from. *)
Record filesystem_error : Type := mk_error {
  what_arg : string;
  path1 : string;
  code_message : string
}.

(** The outcome of a call that may throw an [fs::filesystem_error]. *)
Definition Result (A : Type) : Type := (filesystem_error + A)%type.

(** Sequencing of calls that may throw: the first exception ends the
    evaluation. *)
Definition and_then {A B : Type} (r : Result A) (k : A -> Result B)
  : Result B :=
  match r with
  | inl e => inl e
  | inr v => k v
  end.

(** What the queries on one [fs::directory_entry] do. *)
Record directory_entry : Type := mk_entry {
  filename : string;              (* entry.path().filename().string() *)
  is_directory : bool;            (* entry.is_directory(), the cached type *)
  file_size : Result N;           (* fs::file_size(entry), a uintmax_t *)
  last_write_time : Result Z      (* fs::last_write_time(entry), in ticks of
                                     the file clock *)
}.

(** The environment of one run. *)
Record World : Type := mk_world {
  (* fs::exists(path) *)
  fs_exists : string -> Result bool;
  (* fs::is_directory(path) *)
  fs_is_directory : string -> Result bool;
  (* constructing and draining fs::directory_iterator(path) *)
  directory_iterator : string -> Result (list directory_entry);
  (* e.what() *)
  what : filesystem_error -> string;
  (* srWindow.Left and srWindow.Right when GetConsoleScreenBufferInfo
     succeeds *)
  console_window : option (Z * Z);
  (* what fs::file_time_type::clock::now() and
     std::chrono::system_clock::now() return, in ticks since the epoch of
     each clock, when they are read for the n-th time (n = 0, 1, ...) *)
  clocks_now : nat -> Z * Z;
  (* the number of ticks of both clocks in a second *)
  ticks_per_second : Z;
  (* localtime_s: the broken-down time when it returns 0 *)
  localtime_s : Z -> option tm
}.

(** [s] occurs inside [t]. *)
Definition occurs_in (s t : string) : Prop :=
  exists pre post : string, t = pre ++ s ++ post.

(** What the C++ library promises about the errors of a directory
    iteration: the error carries the path it was asked for, and [what()]
    incorporates that path and the message of the error code. *)
Record library_conforms (W : World) : Prop := {
  iterator_error_path :
    forall p e, directory_iterator W p = inl e -> path1 e = p;
  what_has_path : forall e, occurs_in (path1 e) (what W e);
  what_has_cause : forall e, occurs_in (code_message e) (what W e)
}.

(* ================================================================== *)
(** ** std::sort *)

(** The requirement [std::sort] puts on its comparator. *)
Record strict_weak_order {A : Type} (comp : A -> A -> bool) : Prop := {
  swo_irrefl : forall a, comp a a = false;
  swo_trans : forall a b c, comp a b = true -> comp b c = true -> comp a c = true;
  swo_equiv_trans : forall a b c,
    comp a b = false -> comp b a = false ->
    comp b c = false -> comp c b = false ->
    comp a c = false /\ comp c a = false
}.

(** [l] is sorted with respect to [comp]: no element is ordered before an
    element that precedes it. *)
Definition sorted_by {A : Type} (comp : A -> A -> bool) (l : list A) : Prop :=
  StronglySorted (fun a b => comp b a = false) l.

(** [std::sort(first, last, comp)] on a vector of entries, with a
    comparator that may throw.
    - A range of fewer than two elements is left as it is, without a
      comparison.
    - If the comparator returns on all elements of the range and is a strict
      weak order there, the call returns a rearrangement of the range that
      is sorted. Nothing is promised about the order of equivalent
      elements.
    - An exception that leaves the call is one the comparator threw on two
      elements of the range.
    - A call that returns on a range of two or more elements has compared
      every element at least once (an element that was never compared could
      not have been placed). *)
Class StdSort : Type := {
  std_sort : (directory_entry -> directory_entry -> Result bool) ->
             list directory_entry -> Result (list directory_entry);
  std_sort_short : forall comp l,
    (List.length l <= 1)%nat -> std_sort comp l = inr l;
  std_sort_sorted : forall comp c l,
    (forall a b, In a l -> In b l -> comp a b = inr (c a b)) ->
    strict_weak_order c ->
    exists l', std_sort comp l = inr l' /\ Permutation l l' /\ sorted_by c l';
  std_sort_thrown : forall comp l e,
    std_sort comp l = inl e ->
    exists a b, In a l /\ In b l /\ comp a b = inl e;
  std_sort_compares : forall comp l l',
    std_sort comp l = inr l' -> (2 <= List.length l)%nat ->
    forall a, In a l ->
    exists b v, In b l /\ (comp a b = inr v \/ comp b a = inr v)
}.

(** The comparator of line 115: both times are read, then compared. *)
Definition newer_first (a b : directory_entry) : Result bool :=
  and_then (last_write_time a) (fun ta =>
  and_then (last_write_time b) (fun tb =>
  inr (ta >? tb))).

(** The comparator of line 120: both sizes are read, then compared. *)
Definition larger_first (a b : directory_entry) : Result bool :=
  and_then (file_size a) (fun sa =>
  and_then (file_size b) (fun sb =>
  inr (sb <? sa)%N)).

(* ================================================================== *)
(** ** The sort of the GNU library (bits/stl_algo.h) *)

(** A computation that may throw, or go out of what is embedded: [None]
    stands for an access outside the vector and for the heap sort that
    takes over when the depth limit is exhausted, which is not embedded. *)
Definition Try (A : Type) : Type := option (Result A).

Definition done {A : Type} (a : A) : Try A := Some (inr a).

Definition try_bind {A B : Type} (t : Try A) (k : A -> Try B) : Try B :=
  match t with
  | Some (inr a) => k a
  | Some (inl e) => Some (inl e)
  | None => None
  end.

Notation "x <- t ;; k" := (try_bind t (fun x => k))
  (at level 61, t at next level, right associativity).

(** [a[i] = v]. *)
Fixpoint upd {A : Type} (a : list A) (i : nat) (v : A) : list A :=
  match a, i with
  | [], _ => []
  | _ :: r, O => v :: r
  | x :: r, S k => x :: upd r k v
  end.

Section Libstdcxx.

Context {A : Type} (comp : A -> A -> Result bool).

(** [comp(a + i, a + j)]. *)
Definition compare_at (a : list A) (i j : nat) : Try bool :=
  match nth_error a i, nth_error a j with
  | Some x, Some y => Some (comp x y)
  | _, _ => None
  end.

(** [std::iter_swap(a + i, a + j)]. *)
Definition iter_swap (a : list A) (i j : nat) : Try (list A) :=
  match nth_error a i, nth_error a j with
  | Some x, Some y => done (upd (upd a i y) j x)
  | _, _ => None
  end.

(** [__unguarded_linear_insert(a + last, comp)], [val] being the element
    taken out of [a[last]]: larger elements move up one place until one is
    found that [val] is not ordered before. Nothing stops the walk at the
    start of the vector. *)
Fixpoint unguarded_linear_insert (val : A) (a : list A) (last : nat)
  : Try (list A) :=
  match last with
  | O => None
  | S next =>
    match nth_error a next with
    | None => None
    | Some x =>
      c <- Some (comp val x) ;;
      if c then unguarded_linear_insert val (upd a (S next) x) next
      else done (upd a (S next) val)
    end
  end.

(** [val] taken out of [a[i]], [std::move_backward(a + lo, a + i,
    a + i + 1)] and [a[lo] = val]. *)
Definition move_to_front (a : list A) (lo i : nat) (val : A) : list A :=
  (firstn lo a ++ val :: firstn (i - lo) (skipn lo a) ++ skipn (S i) a)%list.

(** The loop of [__insertion_sort(a + lo, a + hi, comp)], from [i] on, for
    [count] elements. *)
Fixpoint insertion_loop (a : list A) (lo i count : nat) : Try (list A) :=
  match count with
  | O => done a
  | S k =>
    match nth_error a i with
    | None => None
    | Some x =>
      c <- compare_at a i lo ;;
      a1 <- (if c then done (move_to_front a lo i x)
             else unguarded_linear_insert x a i) ;;
      insertion_loop a1 lo (S i) k
    end
  end.

Definition insertion_sort_range (a : list A) (lo hi : nat) : Try (list A) :=
  if (hi =? lo)%nat then done a
  else insertion_loop a lo (S lo) (hi - lo - 1).

(** [__unguarded_insertion_sort(a + i, a + i + count, comp)]. *)
Fixpoint unguarded_insertion_loop (a : list A) (i count : nat)
  : Try (list A) :=
  match count with
  | O => done a
  | S k =>
    match nth_error a i with
    | None => None
    | Some x =>
      a1 <- unguarded_linear_insert x a i ;;
      unguarded_insertion_loop a1 (S i) k
    end
  end.

(** [_S_threshold]. *)
Definition threshold : nat := 16.

(** [__final_insertion_sort(a + lo, a + hi, comp)]. *)
Definition final_insertion_sort (a : list A) (lo hi : nat) : Try (list A) :=
  if (threshold <? hi - lo)%nat then
    a1 <- insertion_sort_range a lo (lo + threshold) ;;
    unguarded_insertion_loop a1 (lo + threshold) (hi - lo - threshold)
  else insertion_sort_range a lo hi.

(** [__move_median_to_first(a + result, a + ia, a + ib, a + ic, comp)]. *)
Definition move_median_to_first (a : list A) (result ia ib ic : nat)
  : Try (list A) :=
  ab <- compare_at a ia ib ;;
  if ab then
    bc <- compare_at a ib ic ;;
    if bc then iter_swap a result ib
    else
      ac <- compare_at a ia ic ;;
      if ac then iter_swap a result ic else iter_swap a result ia
  else
    ac <- compare_at a ia ic ;;
    if ac then iter_swap a result ia
    else
      bc <- compare_at a ib ic ;;
      if bc then iter_swap a result ic else iter_swap a result ib.

(** [while (comp(first, pivot)) ++first;] *)
Fixpoint scan_up (fuel : nat) (a : list A) (first pivot : nat) : Try nat :=
  match fuel with
  | O => None
  | S fuel' =>
    c <- compare_at a first pivot ;;
    if c then scan_up fuel' a (S first) pivot else done first
  end.

(** [while (comp(pivot, last)) --last;] *)
Fixpoint scan_down (a : list A) (last pivot : nat) : Try nat :=
  c <- compare_at a pivot last ;;
  if c then
    match last with
    | O => None
    | S last' => scan_down a last' pivot
    end
  else done last.

(** [__unguarded_partition(a + first, a + last, a + pivot, comp)]: the cut
    and the vector. *)
Fixpoint unguarded_partition (fuel : nat) (a : list A) (first last pivot : nat)
  : Try (nat * list A) :=
  match fuel with
  | O => None
  | S fuel' =>
    first1 <- scan_up (S (List.length a)) a first pivot ;;
    match last with
    | O => None
    | S last' =>
      last1 <- scan_down a last' pivot ;;
      if negb (first1 <? last1)%nat then done (first1, a)
      else
        a1 <- iter_swap a first1 last1 ;;
        unguarded_partition fuel' a1 (S first1) last1 pivot
    end
  end.

(** [__unguarded_partition_pivot(a + lo, a + hi, comp)]. *)
Definition unguarded_partition_pivot (a : list A) (lo hi : nat)
  : Try (nat * list A) :=
  let mid := (lo + (hi - lo) / 2)%nat in
  a1 <- move_median_to_first a lo (lo + 1) mid (hi - 1) ;;
  unguarded_partition (S (List.length a)) a1 (lo + 1) hi lo.

(** [__introsort_loop(a + lo, a + hi, depth_limit, comp)]. *)
Fixpoint introsort_loop (depth_limit : nat) (a : list A) (lo hi : nat)
  : Try (list A) :=
  if (hi - lo <=? threshold)%nat then done a
  else
    match depth_limit with
    | O => None
    | S depth =>
      cut_a <- unguarded_partition_pivot a lo hi ;;
      a2 <- introsort_loop depth (snd cut_a) (fst cut_a) hi ;;
      introsort_loop depth a2 lo (fst cut_a)
    end.

(** [std::__sort(a.begin(), a.end(), comp)]. *)
Definition libstdcxx_algorithm (a : list A) : Try (list A) :=
  match a with
  | [] => done a
  | _ :: _ =>
    let n := List.length a in
    a1 <- introsort_loop (Nat.log2 n * 2) a 0 n ;;
    final_insertion_sort a1 0 n
  end.

End Libstdcxx.

(* ================================================================== *)
(** ** A sort checked against the contract *)

(** An insertion sort in which the comparisons may throw: [x] goes before
    the first element that is not ordered before it. *)
Fixpoint insert_sorted_try {A : Type} (comp : A -> A -> Result bool)
         (x : A) (l : list A) : Result (list A) :=
  match l with
  | [] => inr [x]
  | y :: r =>
    and_then (comp y x) (fun c =>
    if c then and_then (insert_sorted_try comp x r) (fun r' => inr (y :: r'))
    else inr (x :: y :: r))
  end.

Fixpoint insertion_sort_try {A : Type} (comp : A -> A -> Result bool)
         (l : list A) : Result (list A) :=
  match l with
  | [] => inr []
  | x :: r => and_then (insertion_sort_try comp r) (insert_sorted_try comp x)
  end.

(** The same sort with a comparator that does not throw. *)
Fixpoint insert_sorted {A : Type} (comp : A -> A -> bool) (x : A) (l : list A)
  : list A :=
  match l with
  | [] => [x]
  | y :: r => if comp y x then y :: insert_sorted comp x r else x :: y :: r
  end.

Definition insertion_sort {A : Type} (comp : A -> A -> bool) (l : list A)
  : list A :=
  fold_right (insert_sorted comp) [] l.

Definition error_eq_dec (e1 e2 : filesystem_error) : {e1 = e2} + {e1 <> e2}.
Proof. decide equality; apply string_dec. Defined.

Definition entry_eq_dec (a b : directory_entry) : {a = b} + {a <> b}.
Proof.
  decide equality.
  - decide equality; [ apply error_eq_dec | apply Z.eq_dec ].
  - decide equality; [ apply error_eq_dec | apply N.eq_dec ].
  - apply bool_dec.
  - apply string_dec.
Defined.

(** [l] without the first occurrence of [x], if there is one. *)
Fixpoint remove_first (x : directory_entry) (l : list directory_entry)
  : option (list directory_entry) :=
  match l with
  | [] => None
  | y :: r =>
    if entry_eq_dec x y then Some r
    else match remove_first x r with
         | Some r' => Some (y :: r')
         | None => None
         end
  end.

(** [l2] is a rearrangement of [l1]. *)
Fixpoint rearranged (l1 l2 : list directory_entry) : bool :=
  match l1 with
  | [] => match l2 with [] => true | _ :: _ => false end
  | x :: r =>
    match remove_first x l2 with
    | Some l2' => rearranged r l2'
    | None => false
    end
  end.

Definition returns_false (r : Result bool) : bool :=
  match r with inr false => true | _ => false end.

Definition returns (r : Result bool) : bool :=
  match r with inr _ => true | inl _ => false end.

Definition throws (e : filesystem_error) (r : Result bool) : bool :=
  match r with
  | inl e' => if error_eq_dec e e' then true else false
  | inr _ => false
  end.

(** No element of [l] is ordered before an element that precedes it. *)
Fixpoint in_order (comp : directory_entry -> directory_entry -> Result bool)
         (l : list directory_entry) : bool :=
  match l with
  | [] => true
  | a :: r => forallb (fun b => returns_false (comp b a)) r && in_order comp r
  end.

(** Every element of [l] has an element of [l] with which its comparison
    returns. *)
Definition all_compared (comp : directory_entry -> directory_entry -> Result bool)
           (l : list directory_entry) : bool :=
  forallb (fun a => existsb (fun b => returns (comp a b) || returns (comp b a)) l) l.

(** [l'] is a result the contract of [std::sort] allows on [l]. *)
Definition acceptable_return
           (comp : directory_entry -> directory_entry -> Result bool)
           (l l' : list directory_entry) : bool :=
  rearranged l l' && in_order comp l'
  && ((List.length l <=? 1)%nat || all_compared comp l).

(** [e] is an exception the contract of [std::sort] allows on [l]. *)
Definition acceptable_throw
           (comp : directory_entry -> directory_entry -> Result bool)
           (l : list directory_entry) (e : filesystem_error) : bool :=
  (2 <=? List.length l)%nat
  && existsb (fun a => existsb (fun b => throws e (comp a b)) l) l.

(** The outcome of [algorithm] when the contract of [std::sort] allows it,
    and the outcome of the insertion sort otherwise. *)
Definition checked_sort
           (algorithm : (directory_entry -> directory_entry -> Result bool) ->
                        list directory_entry -> Try (list directory_entry))
           (comp : directory_entry -> directory_entry -> Result bool)
           (l : list directory_entry) : Result (list directory_entry) :=
  match algorithm comp l with
  | Some (inr l') =>
    if acceptable_return comp l l' then inr l' else insertion_sort_try comp l
  | Some (inl e) =>
    if acceptable_throw comp l e then inl e else insertion_sort_try comp l
  | None => insertion_sort_try comp l
  end.

(* ================================================================== *)
(** ** The program *)

(** Lines 129-132: the body of the loop that finds the longest name. *)
Definition max_step (m : Z) (entry : directory_entry) : Z :=
  let filenameLength := to_int (Z.of_nat (String.length (filename entry))) in
  if filenameLength >? m then filenameLength else m.

Definition usage_text : string :=
  "Usage: lls [options] [directory]" ++ endl
  ++ "Options:" ++ endl
  ++ "  -l        Long listing format" ++ endl
  ++ "  -d        List directories only" ++ endl
  ++ "  -t        Sort by modification time" ++ endl
  ++ "  -s        Sort by file size" ++ endl
  ++ "  -1        One column output" ++ endl
  ++ "  -C        Multi-column output" ++ endl.

Definition DisplayUsage (io : Streams) : Streams := put_out usage_text io.

(** [arg[0] == '-']; on the empty string [arg[0]] is the terminating NUL. *)
Definition starts_with_dash (arg : string) : bool :=
  match arg with
  | String c _ => Ascii.eqb c "-"%char
  | EmptyString => false
  end.

(** How [ParseArguments] leaves: by returning to [main] with the options
    filled in, through [exit(0)], or by an exception of [fs::exists] or
    [fs::is_directory], which nothing catches. *)
Inductive Parsed : Type :=
  | Returned (options : LsOptions)
  | Exited (code : Z)
  | Terminated (e : filesystem_error).

(** How the process ends: with an exit status, or in [std::terminate]
    because of an uncaught exception. *)
Inductive Ending : Type :=
  | Status (code : Z)
  | Uncaught (e : filesystem_error).

(** Conversion to a signed integer of 64 bits. *)
Definition to_int64 (z : Z) : Z := (z + 2 ^ 63) mod 2 ^ 64 - 2 ^ 63.

Section Program.

Context (W : World) {Sorter : StdSort}.

(** [fs::exists(dir) && fs::is_directory(dir)]: the second call is made
    only when the first returns true, and either may throw. *)
Definition IsValidDirectory (dir : string) : Result bool :=
  and_then (fs_exists W dir) (fun found =>
  if found then fs_is_directory W dir else inr false).

(** The loop of [ParseArguments] over [argv[1]], ..., [argv[argc-1]]. *)
Fixpoint ParseArguments (args : list string) (options : LsOptions)
         (io : Streams) : Streams * Parsed :=
  match args with
  | [] => (io, Returned options)
  | arg :: rest =>
    if String.eqb arg "-l" then
      ParseArguments rest (set_longListing options) io
    else if String.eqb arg "-d" then
      ParseArguments rest (set_directoriesOnly options) io
    else if String.eqb arg "-t" then
      ParseArguments rest (set_sortByTime options) io
    else if String.eqb arg "-s" then
      ParseArguments rest (set_sortBySize options) io
    else if String.eqb arg "-1" then
      ParseArguments rest (set_oneColumn options) io
    else if String.eqb arg "-C" then
      ParseArguments rest (set_multiColumn options) io
    else if String.eqb arg "--help" || String.eqb arg "-h"
            || String.eqb arg "-?" then
      (DisplayUsage io, Exited 0)
    else if String.eqb arg "--version" then
      (put_out ("lls version 1.0.0" ++ endl) io, Exited 0)
    else if starts_with_dash arg then
      ParseArguments rest options
        (DisplayUsage (put_err ("Unknown option: " ++ arg ++ endl) io))
    else
      match IsValidDirectory arg with
      | inl e => (io, Terminated e)
      | inr false =>
        ParseArguments rest options
          (DisplayUsage (put_err ("Invalid directory: " ++ arg ++ endl) io))
      | inr true => ParseArguments rest (set_directory arg options) io
      end
  end.

Definition GetConsoleWidth : Z :=
  match console_window W with
  | Some (Left, Right) => to_int (to_int (Right - Left) + 1)
  | None => 80
  end.

(** Lines 105-110: the entries kept by the collection loop. *)
Definition collect (options : LsOptions) (children : list directory_entry)
  : list directory_entry :=
  filter (fun entry => negb (directoriesOnly options
                             && negb (is_directory entry))) children.

(** Lines 113-122. An exception of a comparator leaves [std::sort]. *)
Definition EntrySorter (options : LsOptions) (entries : list directory_entry)
  : Result (list directory_entry) :=
  if sortByTime options then std_sort newer_first entries
  else if sortBySize options then std_sort larger_first entries
  else inr entries.

(** Lines 126-133. *)
Definition maxFilenameLength (entries : list directory_entry) : Z :=
  fold_left max_step entries 0.

(** Lines 135-136; [None] when the division is by zero. *)
Definition grid_columns (consoleWidth maxLen : Z) : option Z :=
  match int_div consoleWidth (to_int (maxLen + 2)) with
  | Some columns => Some (if columns <? 1 then 1 else columns)
  | None => None
  end.

(** One name of the grid, line 141. *)
Definition grid_cell (maxLen : Z) (entry : directory_entry) : string :=
  setw_left maxLen (filename entry) ++ "  ".

(** Lines 140-145: the printing loop, carrying [count]. *)
Fixpoint grid_loop (maxLen columns : Z) (entries : list directory_entry)
         (count : Z) (io : Streams) : option (Streams * Z) :=
  match entries with
  | [] => Some (io, count)
  | entry :: rest =>
    let io1 := put_out (grid_cell maxLen entry) io in
    let count1 := to_int (count + 1) in
    match int_rem count1 columns with
    | Some r =>
      grid_loop maxLen columns rest count1
                (if r =? 0 then put_out endl io1 else io1)
    | None => None
    end
  end.

(** Lines 124-150. *)
Definition list_grid (entries : list directory_entry) (io : Streams)
  : option Streams :=
  let consoleWidth := GetConsoleWidth in
  let maxLen := maxFilenameLength entries in
  match grid_columns consoleWidth maxLen with
  | Some columns =>
    match grid_loop maxLen columns entries 0 io with
    | Some (io1, count) =>
      match int_rem count columns with
      | Some r => Some (if negb (r =? 0) then put_out endl io1 else io1)
      | None => None
      end
    | None => None
    end
  | None => None
  end.

(** Lines 157-159 at the [n]-th entry of the long listing: the file time is
    shifted by the difference of the two clocks as they are read there, and
    [to_time_t] drops the fraction of a second. *)
Definition to_time_t (n : nat) (ftime : Z) : Z :=
  let (file_now, system_now) := clocks_now W n in
  Z.quot (to_int64 (to_int64 (ftime - file_now) + system_now))
         (ticks_per_second W).

(** Lines 156-171: entry number [n] of the long listing. The streams come
    with the exception that left the statement, if one did: the type
    indicator is already written when [fs::file_size] throws. *)
Definition long_entry (n : nat) (entry : directory_entry) (io : Streams)
  : Streams * option filesystem_error :=
  match last_write_time entry with
  | inl e => (io, Some e)
  | inr ftime =>
    let cftime := to_time_t n ftime in
    match localtime_s W cftime with
    | Some timeInfo =>
      let io1 := put_out (if is_directory entry then "d" else "-") io in
      match file_size entry with
      | inl e => (io1, Some e)
      | inr size =>
        (put_out (setw_right 10 (decimal size) ++ " "
                  ++ put_time timeInfo ++ " "
                  ++ filename entry ++ endl) io1, None)
      end
    | None =>
      (put_err ("Error converting time for file: " ++ filename entry ++ endl)
               io, None)
    end
  end.

(** Lines 153-177: the body of the display loop at entry number [n]. *)
Definition display_entry (options : LsOptions) (n : nat) (io : Streams)
           (entry : directory_entry) : Streams * option filesystem_error :=
  if longListing options then long_entry n entry io
  else (put_out (filename entry
                 ++ (if oneColumn options then endl else "  ")) io, None).

(** Lines 153-177: the display loop from entry number [n] on; it ends at
    the first exception. *)
Fixpoint display_loop (options : LsOptions) (n : nat)
         (entries : list directory_entry) (io : Streams)
  : Streams * option filesystem_error :=
  match entries with
  | [] => (io, None)
  | entry :: rest =>
    match display_entry options n io entry with
    | (io1, None) => display_loop options (S n) rest io1
    | (io1, Some e) => (io1, Some e)
    end
  end.

(** The handler of lines 183-185. *)
Definition report (e : filesystem_error) (io : Streams) : Streams :=
  put_err ("Error: " ++ what W e ++ endl) io.

(** Lines 153-181, and the handler when the loop throws. *)
Definition list_plain (options : LsOptions) (entries : list directory_entry)
           (io : Streams) : Streams :=
  match display_loop options 0 entries io with
  | (io1, None) => if negb (oneColumn options) then put_out endl io1 else io1
  | (io1, Some e) => report e io1
  end.

(** [ListFiles]; [None] stands for a division by zero. *)
Definition ListFiles (options : LsOptions) (io : Streams) : option Streams :=
  match directory_iterator W (directory options) with
  | inr children =>
    match EntrySorter options (collect options children) with
    | inr entries =>
      if multiColumn options then list_grid entries io
      else Some (list_plain options entries io)
    | inl e => Some (report e io)
    end
  | inl e => Some (report e io)
  end.

(** [main]: the streams at the end and how the process ends; [None] stands
    for a division by zero. *)
Definition main (argv : list string) : option (Streams * Ending) :=
  match ParseArguments (tl argv) default_options no_output with
  | (io, Exited code) => Some (io, Status code)
  | (io, Terminated e) => Some (io, Uncaught e)
  | (io, Returned options) =>
    match ListFiles options io with
    | Some io1 => Some (io1, Status 0)
    | None => None
    end
  end.

End Program.

(* ================================================================== *)
(** ** The vocabulary of the specification *)

(** The entries whose modification time is [k], in the order of [l]. *)
Definition with_time (k : Z) (l : list directory_entry) : list directory_entry :=
  filter (fun e => match last_write_time e with
                   | inr t => t =? k
                   | inl _ => false
                   end) l.

(** Every modification time, every size, can be read. *)
Definition times_readable (l : list directory_entry) : Prop :=
  Forall (fun e => exists t, last_write_time e = inr t) l.
Definition sizes_readable (l : list directory_entry) : Prop :=
  Forall (fun e => exists s, file_size e = inr s) l.

(** Most recent first, among the times that can be read. *)
Definition time_non_increasing (l : list directory_entry) : Prop :=
  StronglySorted
    (fun a b => forall ta tb, last_write_time a = inr ta ->
                              last_write_time b = inr tb -> tb <= ta) l.

(** Largest first, among the sizes that can be read. *)
Definition size_non_increasing (l : list directory_entry) : Prop :=
  StronglySorted
    (fun a b => forall sa sb, file_size a = inr sa ->
                              file_size b = inr sb -> (sb <= sa)%N) l.

(** The arguments that [ParseArguments] stores as the directory. *)
Definition directory_argument (W : World) (arg : string) : bool :=
  negb (starts_with_dash arg)
  && match IsValidDirectory W arg with
     | inr true => true
     | _ => false
     end.

(** The arguments that end the run: lines 62 and 66. *)
Definition exit_argument (arg : string) : bool :=
  String.eqb arg "--help" || String.eqb arg "-h" || String.eqb arg "-?"
  || String.eqb arg "--version".

(** The six flags of lines 44-61. *)
Definition flag_argument (arg : string) : bool :=
  String.eqb arg "-l" || String.eqb arg "-d" || String.eqb arg "-t"
  || String.eqb arg "-s" || String.eqb arg "-1" || String.eqb arg "-C".

(** [flag] is one of the arguments. *)
Definition has_flag (flag : string) (args : list string) : bool :=
  existsb (fun arg => String.eqb arg flag) args.

(** The arguments [ParseArguments] checks with [IsValidDirectory]. *)
Definition checked_argument (arg : string) : bool :=
  negb (flag_argument arg) && negb (exit_argument arg)
  && negb (starts_with_dash arg).

(** The arguments on which the check of line 78 throws. *)
Definition throwing_argument (W : World) (arg : string) : bool :=
  checked_argument arg
  && match IsValidDirectory W arg with
     | inl _ => true
     | inr _ => false
     end.

(** The arguments [ParseArguments] warns about: lines 72 and 78. *)
Definition rejected_argument (W : World) (arg : string) : bool :=
  negb (flag_argument arg) && negb (exit_argument arg)
  && (starts_with_dash arg
      || match IsValidDirectory W arg with
         | inr false => true
         | _ => false
         end).

(** The arguments at which [ParseArguments] stops. *)
Definition stopping_argument (W : World) (arg : string) : bool :=
  exit_argument arg || throwing_argument W arg.

(** The line written to [cerr] for a rejected argument. *)
Definition rejection_warning (arg : string) : string :=
  (if starts_with_dash arg then "Unknown option: " else "Invalid directory: ")
  ++ arg ++ endl.

(** What [--help], [-h], [-?] and [--version] print. *)
Definition exit_text (arg : string) : string :=
  if String.eqb arg "--version" then "lls version 1.0.0" ++ endl
  else usage_text.

(** The range of a [SHORT]. *)
Definition is_short (z : Z) : Prop := - 2 ^ 15 <= z <= 2 ^ 15 - 1.

(** The four layouts. *)
Inductive LayoutMode : Type := Grid | Long | OneColumn | Default.

(** The precedence of the specification: grid, long, one-column, default. *)
Definition select_mode (options : LsOptions) : LayoutMode :=
  if multiColumn options then Grid
  else if longListing options then Long
  else if oneColumn options then OneColumn
  else Default.

(** The texts of a list, one after the other. *)
Definition flat (l : list string) : string := fold_right String.append "" l.

(** [d] for a directory, [-] for anything else. *)
Definition type_indicator (entry : directory_entry) : string :=
  if is_directory entry then "d" else "-".

(** A size, right-justified in a field of ten characters. *)
Definition size_field (size : N) : string := setw_right 10 (decimal size).

(** One line of the long listing. *)
Definition long_line (entry : directory_entry) (size : N) (t : tm) : string :=
  type_indicator entry ++ size_field size ++ " " ++ put_time t ++ " "
  ++ filename entry ++ endl.

(** The diagnostic of line 170. *)
Definition conversion_warning (entry : directory_entry) : string :=
  "Error converting time for file: " ++ filename entry ++ endl.

(** What the display loop does with one entry: a line on [cout], a warning
    on [cerr], or an exception after some text on [cout]. *)
Inductive Shown : Type :=
  | Line (text : string)
  | Warning (text : string)
  | Failure (text : string) (e : filesystem_error).

(** Entry number [n] in each of the three modes that print entry by
    entry. *)
Definition show (W : World) (mode : LayoutMode) (n : nat)
           (entry : directory_entry) : Shown :=
  match mode with
  | Long =>
    match last_write_time entry with
    | inl e => Failure "" e
    | inr ftime =>
      match localtime_s W (to_time_t W n ftime) with
      | None => Warning (conversion_warning entry)
      | Some t =>
        match file_size entry with
        | inl e => Failure (type_indicator entry) e
        | inr size => Line (long_line entry size t)
        end
      end
    end
  | OneColumn => Line (filename entry ++ endl)
  | _ => Line (filename entry ++ "  ")
  end.

(** What the entries from number [n] on contribute to [cout], up to the
    first exception. *)
Fixpoint lines_of (W : World) (mode : LayoutMode) (n : nat)
         (entries : list directory_entry) : string :=
  match entries with
  | [] => ""
  | entry :: rest =>
    match show W mode n entry with
    | Line text => text ++ lines_of W mode (S n) rest
    | Warning _ => lines_of W mode (S n) rest
    | Failure text _ => text
    end
  end.

(** What they contribute to [cerr] before the first exception. *)
Fixpoint warnings_of (W : World) (mode : LayoutMode) (n : nat)
         (entries : list directory_entry) : string :=
  match entries with
  | [] => ""
  | entry :: rest =>
    match show W mode n entry with
    | Line _ => warnings_of W mode (S n) rest
    | Warning text => text ++ warnings_of W mode (S n) rest
    | Failure _ _ => ""
    end
  end.

(** The first exception, if there is one. *)
Fixpoint failure_of (W : World) (mode : LayoutMode) (n : nat)
         (entries : list directory_entry) : option filesystem_error :=
  match entries with
  | [] => None
  | entry :: rest =>
    match show W mode n entry with
    | Failure _ e => Some e
    | _ => failure_of W mode (S n) rest
    end
  end.

(** Whether a newline follows the entries. *)
Definition trailing_newline (mode : LayoutMode) (options : LsOptions) : string :=
  match mode with
  | Grid => ""
  | Long => if oneColumn options then "" else endl
  | OneColumn => ""
  | Default => endl
  end.

(** The listing of a mode, given what the sort returned or threw. Only the
    long listing looks at an option beyond the mode: its closing newline is
    left out under [oneColumn]. An exception ends the listing with the
    line of the handler and without closing newline. *)
Definition render (W : World) (mode : LayoutMode) (options : LsOptions)
           (sorted : Result (list directory_entry)) (io : Streams)
  : option Streams :=
  match sorted with
  | inl e => Some (report W e io)
  | inr entries =>
    match mode with
    | Grid => list_grid W entries io
    | _ =>
      Some match failure_of W mode 0 entries with
           | None =>
             {| cout := cout io ++ lines_of W mode 0 entries
                        ++ trailing_newline mode options;
                cerr := cerr io ++ warnings_of W mode 0 entries |}
           | Some e =>
             {| cout := cout io ++ lines_of W mode 0 entries;
                cerr := cerr io ++ warnings_of W mode 0 entries
                        ++ "Error: " ++ what W e ++ endl |}
           end
    end
  end.

(** [c] is one of 0 ... 9. *)
Definition is_digit (c : ascii) : bool :=
  (48 <=? nat_of_ascii c)%nat && (nat_of_ascii c <=? 57)%nat.

(** [s] reads YYYY-MM-DD HH:MM:SS. *)
Definition timestamp_shape (s : string) : bool :=
  match list_ascii_of_string s with
  | [y1; y2; y3; y4; p1; m1; m2; p2; d1; d2; p3; h1; h2; p4; n1; n2; p5;
     s1; s2] =>
    forallb is_digit [y1; y2; y3; y4; m1; m2; d1; d2; h1; h2; n1; n2; s1; s2]
    && Ascii.eqb p1 "-" && Ascii.eqb p2 "-" && Ascii.eqb p3 " "
    && Ascii.eqb p4 ":" && Ascii.eqb p5 ":"
  | _ => false
  end.

(** The fields of a [tm] that [localtime_s] fills in, for a year of four
    digits. *)
Record calendar_time (t : tm) : Prop := {
  sec_range : 0 <= tm_sec t <= 60;
  min_range : 0 <= tm_min t <= 59;
  hour_range : 0 <= tm_hour t <= 23;
  mday_range : 1 <= tm_mday t <= 31;
  mon_range : 0 <= tm_mon t <= 11;
  year_range : 1000 <= 1900 + tm_year t <= 9999
}.

(** [s] is made of exactly four digits. *)
Definition four_digits (s : string) : bool :=
  match s with
  | String a (String b (String c (String d EmptyString))) =>
    is_digit a && is_digit b && is_digit c && is_digit d
  | _ => false
  end.

(** A modification time or 0, a size or 0, when it cannot be read. *)
Definition time_or_zero (e : directory_entry) : Z :=
  match last_write_time e with inr t => t | inl _ => 0 end.
Definition size_or_zero (e : directory_entry) : N :=
  match file_size e with inr s => s | inl _ => 0%N end.

(** The orders of the two comparators on entries whose time, or size, can
    be read. *)
Definition newer (a b : directory_entry) : bool :=
  time_or_zero a >? time_or_zero b.
Definition larger (a b : directory_entry) : bool :=
  (size_or_zero b <? size_or_zero a)%N.


(** The longest name, 0 for no entries. *)
Definition maxNameLen (entries : list directory_entry) : nat :=
  list_max (map (fun e => String.length (filename e)) entries).

(** The column count of the specification, with the division rounding
    down. *)
Definition columnCount (terminalWidth : Z) (entries : list directory_entry) : Z :=
  Z.max 1 (terminalWidth / (Z.of_nat (maxNameLen entries) + 2)).

(** A name, left-justified in [maxLen] characters, and two spaces. *)
Definition padded_name (maxLen : nat) (entry : directory_entry) : string :=
  filename entry ++ spaces (maxLen - String.length (filename entry)) ++ "  ".

(** A row of the grid and its newline. *)
Definition grid_row (maxLen : nat) (row : list directory_entry) : string :=
  flat (map (padded_name maxLen) row) ++ endl.

(** [l] cut into rows of [k] entries, the last one possibly shorter. *)
Fixpoint rows_of {A : Type} (fuel k : nat) (l : list A) : list (list A) :=
  match fuel with
  | O => []
  | S fuel' =>
    match l with
    | [] => []
    | _ :: _ => firstn k l :: rows_of fuel' k (skipn k l)
    end
  end.

(** The rows of a grid of [k] columns. *)
Definition rows {A : Type} (k : nat) (l : list A) : list (list A) :=
  rows_of (List.length l) k l.

(** The column width of a name is representable as [int]. *)
Definition name_fits (e : directory_entry) : Prop :=
  Z.of_nat (String.length (filename e)) + 2 <= int_max.

(** The number of entries and every column width are representable as
    [int], so that the arithmetic of grid mode does not overflow. *)
Definition fits_int (entries : list directory_entry) : Prop :=
  Z.of_nat (List.length entries) <= int_max /\ Forall name_fits entries.

(* ================================================================== *)
(** ** Small worlds to run the program in *)

Module Demo.

Definition file (name : string) (size : N) (time : Z) : directory_entry :=
  {| filename := name; is_directory := false; file_size := inr size;
     last_write_time := inr time |}.

Definition a_txt : directory_entry := file "a" 10 3600.
Definition b_txt : directory_entry := file "b" 20 3600.
Definition old : directory_entry := file "old" 12345678901 (-1).

(** A directory on a system where its size can be read. *)
Definition sub : directory_entry :=
  {| filename := "sub"; is_directory := true; file_size := inr 0%N;
     last_write_time := inr 86399 |}.

Definition not_found (p : string) : filesystem_error :=
  {| what_arg := "directory_iterator::directory_iterator"; path1 := p;
     code_message := "No such file or directory" |}.

Definition is_a_directory (p : string) : filesystem_error :=
  {| what_arg := "cannot get file size"; path1 := p;
     code_message := "Is a directory" |}.

Definition no_time (p : string) : filesystem_error :=
  {| what_arg := "cannot get file time"; path1 := p;
     code_message := "No such file or directory" |}.

Definition no_size (p : string) : filesystem_error :=
  {| what_arg := "cannot get file size"; path1 := p;
     code_message := "No such file or directory" |}.

Definition name_too_long (p : string) : filesystem_error :=
  {| what_arg := "status"; path1 := p; code_message := "File name too long" |}.

(** A directory on a system where the size of a directory cannot be
    read. *)
Definition dir : directory_entry :=
  {| filename := "dir"; is_directory := true;
     file_size := inl (is_a_directory "dir");
     last_write_time := inr 7200 |}.

(** A file that was removed after the directory was read. *)
Definition gone : directory_entry :=
  {| filename := "gone"; is_directory := false;
     file_size := inl (no_size "gone"); last_write_time := inl (no_time "gone") |}.

(** Seventeen files with the same modification time. *)
Definition seventeen : list directory_entry :=
  map (fun name => file name 1 3600)
      ["f00"; "f01"; "f02"; "f03"; "f04"; "f05"; "f06"; "f07"; "f08"; "f09";
       "f10"; "f11"; "f12"; "f13"; "f14"; "f15"; "f16"].

(** A calendar that only knows January 1970, in UTC. *)
Definition january_1970 (t : Z) : option tm :=
  if (0 <=? t) && (t <? 31 * 86400) then
    Some {| tm_sec := t mod 60; tm_min := (t / 60) mod 60;
            tm_hour := (t / 3600) mod 24; tm_mday := 1 + t / 86400;
            tm_mon := 0; tm_year := 70 |}
  else None.

Definition known_directory (p : string) : bool :=
  String.eqb p "." || String.eqb p "attic" || String.eqb p "empty"
  || String.eqb p "mixed" || String.eqb p "stale" || String.eqb p "many".

(** A name of more than 255 characters cannot be looked up. *)
Definition lookup (p : string) : Result bool :=
  if (255 <? String.length p)%nat then inl (name_too_long p)
  else inr (known_directory p).

(** The current directory holds [a], [b] and [sub]; [attic] holds [a],
    [old] and [sub]; [mixed] holds [a], [dir] and [b]; [stale] holds [a],
    [gone] and [b]; [many] holds the seventeen files; [empty] holds
    nothing; no other path exists. No console is attached. Both clocks
    tick once a second and stand at their epoch. *)
Definition world : World :=
  {| fs_exists := lookup;
     fs_is_directory := lookup;
     directory_iterator := fun p =>
       if String.eqb p "." then inr [a_txt; b_txt; sub]
       else if String.eqb p "attic" then inr [a_txt; old; sub]
       else if String.eqb p "mixed" then inr [a_txt; dir; b_txt]
       else if String.eqb p "stale" then inr [a_txt; gone; b_txt]
       else if String.eqb p "many" then inr seventeen
       else if String.eqb p "empty" then inr []
       else inl (not_found p);
     what := fun e =>
       "filesystem error: " ++ what_arg e ++ ": " ++ code_message e
       ++ " [" ++ path1 e ++ "]";
     console_window := None;
     clocks_now := fun _ => (0, 0);
     ticks_per_second := 1;
     localtime_s := january_1970 |}.

Definition seven_files : list directory_entry :=
  map (fun name => file name 1 0)
      ["file1"; "file2"; "file3"; "file4"; "file5"; "file6"; "file7"].

(** A console of 40 columns on a directory of seven names of five
    characters. *)
Definition narrow_world : World :=
  {| fs_exists := fun p => inr (String.eqb p ".");
     fs_is_directory := fun p => inr (String.eqb p ".");
     directory_iterator := fun p =>
       if String.eqb p "." then inr seven_files else inl (not_found p);
     what := what world;
     console_window := Some (0, 39);
     clocks_now := fun _ => (0, 0);
     ticks_per_second := 1;
     localtime_s := january_1970 |}.

(** Clocks that tick a thousand times a second. At the first entry both
    are read at the same tick; at the second the system clock is read five
    ticks before the file clock. The directory holds two files written at
    01:00:00 sharp. *)
Definition drifting_world : World :=
  {| fs_exists := fun p => inr (String.eqb p ".");
     fs_is_directory := fun p => inr (String.eqb p ".");
     directory_iterator := fun p =>
       if String.eqb p "." then inr [file "a" 10 3600000; file "b" 20 3600000]
       else inl (not_found p);
     what := what world;
     console_window := None;
     clocks_now := fun n => match n with O => (100, 100) | S _ => (205, 200) end;
     ticks_per_second := 1000;
     localtime_s := january_1970 |}.

(** A name of 256 characters. *)
Definition long_name : string :=
  string_of_list_ascii (repeat "x"%char 256).

End Demo.

(* ================================================================== *)
(** ** Lemmas on text and streams *)

Lemma append_assoc (s t u : string) : (s ++ t) ++ u = s ++ t ++ u.
Proof. induction s as [ | c s IH ]; simpl; [ | rewrite IH ]; reflexivity. Qed.

Lemma append_nil_r (s : string) : s ++ "" = s.
Proof. induction s as [ | c s IH ]; simpl; [ | rewrite IH ]; reflexivity. Qed.

Lemma length_append (s t : string) :
  String.length (s ++ t) = (String.length s + String.length t)%nat.
Proof. induction s as [ | c s IH ]; simpl; [ | rewrite IH ]; reflexivity. Qed.

Lemma length_spaces (n : nat) : String.length (spaces n) = n.
Proof. induction n as [ | n IH ]; simpl; [ | rewrite IH ]; reflexivity. Qed.

Lemma put_out_put_out (s t : string) (io : Streams) :
  put_out t (put_out s io) = put_out (s ++ t) io.
Proof. unfold put_out; simpl. rewrite append_assoc. reflexivity. Qed.

Lemma put_out_nil (io : Streams) : put_out "" io = io.
Proof. destruct io. unfold put_out; simpl. rewrite append_nil_r. reflexivity. Qed.

Lemma demo_world_conforms : library_conforms Demo.world.
Proof.
  split.
  - intros p e. simpl.
    repeat match goal with
    | |- (if ?b then _ else _) = _ -> _ => destruct b; [ discriminate | ]
    end.
    intros H. injection H as <-. reflexivity.
  - intros e. simpl.
    exists ("filesystem error: " ++ what_arg e ++ ": " ++ code_message e
            ++ " ["), "]".
    rewrite !append_assoc. reflexivity.
  - intros e. simpl.
    exists ("filesystem error: " ++ what_arg e ++ ": "),
           (" [" ++ path1 e ++ "]").
    rewrite !append_assoc. reflexivity.
Qed.

(* ================================================================== *)
(** ** Sorting: the insertion sort and the checks *)

Section StrictWeakOrders.

Context {A : Type} (comp : A -> A -> bool).
Hypothesis comp_swo : strict_weak_order comp.

Lemma swo_asym a b : comp a b = true -> comp b a = false.
Proof.
  intros Hab. destruct (comp b a) eqn:Hba; [ | reflexivity ].
  pose proof (swo_trans comp comp_swo a b a Hab Hba) as Haa.
  rewrite (swo_irrefl comp comp_swo) in Haa. discriminate.
Qed.

Lemma swo_neg_trans a b c :
  comp a b = false -> comp b c = false -> comp a c = false.
Proof.
  intros Hab Hbc. destruct (comp a c) eqn:Hac; [ | reflexivity ].
  destruct (comp b a) eqn:Hba.
  - rewrite (swo_trans comp comp_swo b a c Hba Hac) in Hbc. discriminate.
  - destruct (comp c b) eqn:Hcb.
    + rewrite (swo_trans comp comp_swo a c b Hac Hcb) in Hab. discriminate.
    + destruct (swo_equiv_trans comp comp_swo a b c Hab Hba Hbc Hcb) as [H _].
      congruence.
Qed.

Lemma insert_sorted_permutation x l :
  Permutation (x :: l) (insert_sorted comp x l).
Proof.
  induction l as [ | y r IH ]; simpl.
  - apply Permutation_refl.
  - destruct (comp y x).
    + apply perm_trans with (y :: x :: r); [ apply perm_swap | ].
      apply perm_skip, IH.
    + apply Permutation_refl.
Qed.

Lemma insert_sorted_sorted x l :
  sorted_by comp l -> sorted_by comp (insert_sorted comp x l).
Proof.
  unfold sorted_by. induction l as [ | y r IH ]; simpl; intros Hs.
  - constructor; constructor.
  - inversion Hs as [ | y' r' Hr Hy ]; subst.
    destruct (comp y x) eqn:Hyx.
    + constructor; [ apply IH, Hr | ].
      apply (Permutation_Forall (insert_sorted_permutation x r)).
      constructor; [ apply swo_asym, Hyx | exact Hy ].
    + constructor; [ exact Hs | ].
      constructor; [ exact Hyx | ].
      apply Forall_impl with (2 := Hy).
      intros z Hzy. apply swo_neg_trans with y; assumption.
Qed.

Lemma insertion_sort_permutation l : Permutation l (insertion_sort comp l).
Proof.
  induction l as [ | x r IH ]; simpl; [ constructor | ].
  apply perm_trans with (x :: insertion_sort comp r).
  - apply perm_skip, IH.
  - apply insert_sorted_permutation.
Qed.

Lemma insertion_sort_sorted l : sorted_by comp (insertion_sort comp l).
Proof.
  induction l as [ | x r IH ]; simpl.
  - constructor.
  - apply insert_sorted_sorted, IH.
Qed.

End StrictWeakOrders.

Section InsertionSortTry.

Context {A : Type} (comp : A -> A -> Result bool).

Lemma insert_sorted_try_pure (c : A -> A -> bool) x s :
  (forall y, In y s -> comp y x = inr (c y x)) ->
  insert_sorted_try comp x s = inr (insert_sorted c x s).
Proof.
  induction s as [ | y r IH ]; intros H; [ reflexivity | ].
  simpl. rewrite (H y) by (left; reflexivity). simpl.
  destruct (c y x); [ | reflexivity ].
  rewrite IH by (intros z Hz; apply H; right; exact Hz). reflexivity.
Qed.

Lemma insertion_sort_try_pure (c : A -> A -> bool) l :
  (forall a b, In a l -> In b l -> comp a b = inr (c a b)) ->
  insertion_sort_try comp l = inr (insertion_sort c l).
Proof.
  induction l as [ | x r IH ]; intros H; [ reflexivity | ].
  simpl. rewrite IH by (intros a b Ha Hb; apply H; right; assumption).
  simpl. apply insert_sorted_try_pure. intros y Hy.
  apply H; [ right | left; reflexivity ].
  apply Permutation_in with (2 := Hy), Permutation_sym.
  apply insertion_sort_permutation.
Qed.

Lemma insert_sorted_try_permutation x s s' :
  insert_sorted_try comp x s = inr s' -> Permutation (x :: s) s'.
Proof.
  revert s'. induction s as [ | y r IH ]; intros s' H.
  - simpl in H. injection H as <-. apply Permutation_refl.
  - simpl in H. destruct (comp y x) as [e | [ | ]]; simpl in H;
      [ discriminate H | | injection H as <-; apply Permutation_refl ].
    destruct (insert_sorted_try comp x r) as [e | r']; simpl in H;
      [ discriminate H | ].
    injection H as <-.
    apply perm_trans with (y :: x :: r); [ apply perm_swap | ].
    apply perm_skip, IH. reflexivity.
Qed.

Lemma insertion_sort_try_permutation l : forall s,
  insertion_sort_try comp l = inr s -> Permutation l s.
Proof.
  induction l as [ | x r IH ]; intros s H.
  - simpl in H. injection H as <-. constructor.
  - simpl in H. destruct (insertion_sort_try comp r) as [e | s0]; simpl in H;
      [ discriminate H | ].
    apply perm_trans with (x :: s0); [ apply perm_skip, IH; reflexivity | ].
    apply insert_sorted_try_permutation, H.
Qed.

Lemma insert_sorted_try_thrown x s e :
  insert_sorted_try comp x s = inl e -> exists y, In y s /\ comp y x = inl e.
Proof.
  induction s as [ | y r IH ]; intros H; [ discriminate H | ].
  simpl in H. destruct (comp y x) as [e' | [ | ]] eqn:Hc; simpl in H.
  - injection H as ->. exists y. split; [ left; reflexivity | exact Hc ].
  - destruct (insert_sorted_try comp x r) as [e' | r']; simpl in H;
      [ | discriminate H ].
    injection H as ->. destruct IH as [z [Hz Hcz]]; [ reflexivity | ].
    exists z. split; [ right; exact Hz | exact Hcz ].
  - discriminate H.
Qed.

Lemma insertion_sort_try_thrown l e :
  insertion_sort_try comp l = inl e ->
  exists a b, In a l /\ In b l /\ comp a b = inl e.
Proof.
  induction l as [ | x r IH ]; intros H; [ discriminate H | ].
  simpl in H. destruct (insertion_sort_try comp r) as [e' | s] eqn:Hs;
    simpl in H.
  - injection H as ->. destruct IH as [a [b [Ha [Hb Hc]]]]; [ reflexivity | ].
    exists a, b. repeat split; [ right; exact Ha | right; exact Hb | exact Hc ].
  - apply insert_sorted_try_thrown in H. destruct H as [y [Hy Hc]].
    exists y, x. repeat split; [ right | left; reflexivity | exact Hc ].
    apply Permutation_in with (2 := Hy), Permutation_sym.
    apply insertion_sort_try_permutation, Hs.
Qed.

Lemma insertion_sort_try_short l :
  (List.length l <= 1)%nat -> insertion_sort_try comp l = inr l.
Proof.
  destruct l as [ | x [ | y r ] ]; simpl; intros H;
    [ reflexivity | reflexivity | lia ].
Qed.

Lemma insertion_sort_try_compares l : forall s,
  insertion_sort_try comp l = inr s -> (2 <= List.length l)%nat ->
  forall a, In a l ->
  exists b v, In b l /\ (comp a b = inr v \/ comp b a = inr v).
Proof.
  induction l as [ | x r IH ]; intros s H Hlen a Ha; [ destruct Ha | ].
  simpl in H. destruct (insertion_sort_try comp r) as [e | s0] eqn:Hs;
    simpl in H; [ discriminate H | ].
  pose proof (insertion_sort_try_permutation r s0 Hs) as Hperm.
  (* the head of the sorted rest is compared with [x] *)
  assert (Hx : exists y v, In y r /\ comp y x = inr v).
  { destruct s0 as [ | y s1 ].
    - apply Permutation_sym, Permutation_nil in Hperm. subst r.
      simpl in Hlen. lia.
    - simpl in H. destruct (comp y x) as [e | v] eqn:Hc; [ discriminate H | ].
      exists y, v. split; [ | exact Hc ].
      apply Permutation_in with (l := y :: s1);
        [ apply Permutation_sym, Hperm | left; reflexivity ]. }
  destruct Ha as [<- | Ha].
  - destruct Hx as [y [v [Hy Hc]]]. exists y, v.
    split; [ right; exact Hy | right; exact Hc ].
  - destruct r as [ | y [ | z r' ] ].
    + destruct Ha.
    + destruct Ha as [<- | []]. destruct Hx as [y' [v [Hy Hc]]].
      destruct Hy as [<- | []]. exists x, v.
      split; [ left; reflexivity | left; exact Hc ].
    + destruct (IH s0 eq_refl ltac:(simpl; lia) a Ha) as [b [v [Hb Hc]]].
      exists b, v. split; [ right; exact Hb | exact Hc ].
Qed.

End InsertionSortTry.

Lemma remove_first_permutation x l : forall l',
  remove_first x l = Some l' -> Permutation l (x :: l').
Proof.
  induction l as [ | y r IH ]; intros l' H; [ discriminate H | ].
  simpl in H. destruct (entry_eq_dec x y) as [<- | Hne].
  - injection H as <-. apply Permutation_refl.
  - destruct (remove_first x r) as [r' | ]; [ | discriminate H ].
    injection H as <-.
    apply perm_trans with (y :: x :: r');
      [ apply perm_skip, IH; reflexivity | apply perm_swap ].
Qed.

Lemma rearranged_permutation l1 : forall l2,
  rearranged l1 l2 = true -> Permutation l1 l2.
Proof.
  induction l1 as [ | x r IH ]; intros l2 H.
  - destruct l2; [ constructor | discriminate H ].
  - simpl in H. destruct (remove_first x l2) as [l2' | ] eqn:Hr;
      [ | discriminate H ].
    apply perm_trans with (x :: l2'); [ apply perm_skip, IH, H | ].
    apply Permutation_sym, remove_first_permutation, Hr.
Qed.

Lemma in_order_sorted comp (c : directory_entry -> directory_entry -> bool) l :
  (forall a b, In a l -> In b l -> comp a b = inr (c a b)) ->
  in_order comp l = true -> sorted_by c l.
Proof.
  unfold sorted_by. induction l as [ | a r IH ]; intros Hc H; [ constructor | ].
  simpl in H. apply andb_prop in H. destruct H as [Ha Hr].
  constructor.
  - apply IH; [ | exact Hr ].
    intros x y Hx Hy. apply Hc; right; assumption.
  - rewrite forallb_forall in Ha. apply Forall_forall. intros b Hb.
    specialize (Ha b Hb).
    rewrite (Hc b a) in Ha by (try (right; exact Hb); left; reflexivity).
    simpl in Ha. destruct (c b a); [ discriminate Ha | reflexivity ].
Qed.

Lemma all_compared_sound comp l :
  all_compared comp l = true ->
  forall a, In a l ->
  exists b v, In b l /\ (comp a b = inr v \/ comp b a = inr v).
Proof.
  unfold all_compared. intros H a Ha.
  rewrite forallb_forall in H. specialize (H a Ha).
  apply existsb_exists in H. destruct H as [b [Hb H]].
  apply orb_prop in H. unfold returns in H.
  destruct H as [H | H].
  - destruct (comp a b) as [e | v] eqn:Hc; [ discriminate H | ].
    exists b, v. split; [ exact Hb | left; exact Hc ].
  - destruct (comp b a) as [e | v] eqn:Hc; [ discriminate H | ].
    exists b, v. split; [ exact Hb | right; exact Hc ].
Qed.

Lemma acceptable_throw_sound comp l e :
  acceptable_throw comp l e = true ->
  (2 <= List.length l)%nat
  /\ exists a b, In a l /\ In b l /\ comp a b = inl e.
Proof.
  unfold acceptable_throw. intros H.
  apply andb_prop in H. destruct H as [Hlen H].
  split; [ apply Nat.leb_le, Hlen | ].
  apply existsb_exists in H. destruct H as [a [Ha H]].
  apply existsb_exists in H. destruct H as [b [Hb H]].
  exists a, b. repeat split; [ exact Ha | exact Hb | ].
  unfold throws in H. destruct (comp a b) as [e' | v]; [ | discriminate H ].
  destruct (error_eq_dec e e') as [Heq | ]; [ | discriminate H ].
  rewrite Heq. reflexivity.
Qed.

Section CheckedSort.

Variable algorithm :
  (directory_entry -> directory_entry -> Result bool) ->
  list directory_entry -> Try (list directory_entry).

Lemma checked_sort_cases comp l :
  (exists l', checked_sort algorithm comp l = inr l'
              /\ acceptable_return comp l l' = true)
  \/ (exists e, checked_sort algorithm comp l = inl e
                /\ acceptable_throw comp l e = true)
  \/ checked_sort algorithm comp l = insertion_sort_try comp l.
Proof.
  unfold checked_sort.
  destruct (algorithm comp l) as [[e | l'] | ].
  - destruct (acceptable_throw comp l e) eqn:H.
    + right. left. exists e. split; [ reflexivity | exact H ].
    + right. right. reflexivity.
  - destruct (acceptable_return comp l l') eqn:H.
    + left. exists l'. split; [ reflexivity | exact H ].
    + right. right. reflexivity.
  - right. right. reflexivity.
Qed.

Lemma checked_sort_short comp l :
  (List.length l <= 1)%nat -> checked_sort algorithm comp l = inr l.
Proof.
  intros Hlen.
  destruct (checked_sort_cases comp l) as [[l' [-> H]] | [[e [_ H]] | ->]].
  - unfold acceptable_return in H.
    apply andb_prop in H. destruct H as [H _].
    apply andb_prop in H. destruct H as [H _].
    apply rearranged_permutation in H.
    destruct l as [ | x [ | y r ] ]; [ | | simpl in Hlen; lia ].
    + apply Permutation_nil in H. subst l'. reflexivity.
    + apply Permutation_length_1_inv in H. subst l'. reflexivity.
  - apply acceptable_throw_sound in H. lia.
  - apply insertion_sort_try_short, Hlen.
Qed.

Lemma checked_sort_sorted comp (c : directory_entry -> directory_entry -> bool) l :
  (forall a b, In a l -> In b l -> comp a b = inr (c a b)) ->
  strict_weak_order c ->
  exists l', checked_sort algorithm comp l = inr l'
             /\ Permutation l l' /\ sorted_by c l'.
Proof.
  intros Hc Hswo.
  destruct (checked_sort_cases comp l) as [[l' [-> H]] | [[e [_ H]] | ->]].
  - unfold acceptable_return in H.
    apply andb_prop in H. destruct H as [H _].
    apply andb_prop in H. destruct H as [Hperm Hord].
    apply rearranged_permutation in Hperm.
    exists l'. split; [ reflexivity | split; [ exact Hperm | ] ].
    apply in_order_sorted with (comp := comp); [ | exact Hord ].
    intros a b Ha Hb.
    apply Hc; apply Permutation_in with (l := l');
      first [ apply Permutation_sym, Hperm | assumption ].
  - apply acceptable_throw_sound in H.
    destruct H as [_ [a [b [Ha [Hb H]]]]].
    rewrite (Hc a b Ha Hb) in H. discriminate H.
  - rewrite (insertion_sort_try_pure comp c l Hc).
    exists (insertion_sort c l). split; [ reflexivity | ].
    split; [ apply insertion_sort_permutation
           | apply insertion_sort_sorted, Hswo ].
Qed.

Lemma checked_sort_thrown comp l e :
  checked_sort algorithm comp l = inl e ->
  exists a b, In a l /\ In b l /\ comp a b = inl e.
Proof.
  destruct (checked_sort_cases comp l) as [[l' [-> H]] | [[e' [-> H]] | ->]];
    intros Heq.
  - discriminate Heq.
  - injection Heq as <-. apply acceptable_throw_sound in H. apply H.
  - apply insertion_sort_try_thrown, Heq.
Qed.

Lemma checked_sort_compares comp l l' :
  checked_sort algorithm comp l = inr l' -> (2 <= List.length l)%nat ->
  forall a, In a l ->
  exists b v, In b l /\ (comp a b = inr v \/ comp b a = inr v).
Proof.
  destruct (checked_sort_cases comp l) as [[l0 [-> H]] | [[e [-> H]] | ->]];
    intros Heq Hlen.
  - unfold acceptable_return in H.
    apply andb_prop in H. destruct H as [_ H].
    apply orb_prop in H. destruct H as [H | H].
    + apply Nat.leb_le in H. lia.
    + apply all_compared_sound, H.
  - discriminate Heq.
  - apply insertion_sort_try_compares with (s := l'); assumption.
Qed.

(** The checked algorithm meets the contract of [std::sort]. *)
Definition checked : StdSort := {|
  std_sort := checked_sort algorithm;
  std_sort_short := checked_sort_short;
  std_sort_sorted := checked_sort_sorted;
  std_sort_thrown := checked_sort_thrown;
  std_sort_compares := checked_sort_compares
|}.

End CheckedSort.

(** [std::sort] as the GNU library implements it. *)
Definition libstdcxx_sort : StdSort :=
  checked (fun comp l => libstdcxx_algorithm comp l).

(* ================================================================== *)
(** ** EntrySorter *)

Lemma newer_swo : strict_weak_order newer.
Proof.
  unfold newer. split; intros *; rewrite ?Z.gtb_ltb, ?Z.ltb_lt, ?Z.ltb_ge;
    lia.
Qed.

Lemma larger_swo : strict_weak_order larger.
Proof.
  unfold larger. split; intros *; rewrite ?N.ltb_lt, ?N.ltb_ge; lia.
Qed.

Lemma newer_first_cases a b :
  match newer_first a b with
  | inr v => v = newer a b
             /\ (exists t, last_write_time a = inr t)
             /\ (exists t, last_write_time b = inr t)
  | inl e => last_write_time a = inl e \/ last_write_time b = inl e
  end.
Proof.
  unfold newer_first, newer, time_or_zero.
  destruct (last_write_time a) as [ea | ta]; simpl; [ left; reflexivity | ].
  destruct (last_write_time b) as [eb | tb]; simpl; [ right; reflexivity | ].
  split; [ reflexivity | split; eexists; reflexivity ].
Qed.

Lemma larger_first_cases a b :
  match larger_first a b with
  | inr v => v = larger a b
             /\ (exists s, file_size a = inr s)
             /\ (exists s, file_size b = inr s)
  | inl e => file_size a = inl e \/ file_size b = inl e
  end.
Proof.
  unfold larger_first, larger, size_or_zero.
  destruct (file_size a) as [ea | sa]; simpl; [ left; reflexivity | ].
  destruct (file_size b) as [eb | sb]; simpl; [ right; reflexivity | ].
  split; [ reflexivity | split; eexists; reflexivity ].
Qed.

Lemma sorted_newer l : sorted_by newer l -> time_non_increasing l.
Proof.
  unfold sorted_by, time_non_increasing, newer, time_or_zero.
  induction 1 as [ | a l Hl IH Ha ]; constructor; [ exact IH | ].
  apply Forall_impl with (2 := Ha). intros b Hb ta tb Hta Htb.
  rewrite Hta, Htb, Z.gtb_ltb, Z.ltb_ge in Hb. exact Hb.
Qed.

Lemma sorted_larger l : sorted_by larger l -> size_non_increasing l.
Proof.
  unfold sorted_by, size_non_increasing, larger, size_or_zero.
  induction 1 as [ | a l Hl IH Ha ]; constructor; [ exact IH | ].
  apply Forall_impl with (2 := Ha). intros b Hb sa sb Hsa Hsb.
  rewrite Hsa, Hsb, N.ltb_ge in Hb. exact Hb.
Qed.

Lemma sorted_by_short {A : Type} (c : A -> A -> bool) (l : list A) :
  (List.length l <= 1)%nat -> sorted_by c l.
Proof.
  destruct l as [ | x [ | y r ] ]; simpl; intros H;
    [ constructor | repeat constructor | lia ].
Qed.

(** What [std::sort] does with a comparator that reads a key of each of
    its two arguments. *)
Section SortByKey.

Context {Sorter : StdSort}.
Variable comp : directory_entry -> directory_entry -> Result bool.
Variable order : directory_entry -> directory_entry -> bool.
Variable readable : directory_entry -> Prop.
Variable failing : filesystem_error -> directory_entry -> Prop.
Hypothesis order_swo : strict_weak_order order.
Hypothesis comp_cases : forall a b,
  match comp a b with
  | inr v => v = order a b /\ readable a /\ readable b
  | inl e => failing e a \/ failing e b
  end.
Hypothesis comp_readable : forall a b,
  readable a -> readable b -> exists v, comp a b = inr v.

Lemma comp_agrees l :
  Forall readable l ->
  forall a b, In a l -> In b l -> comp a b = inr (order a b).
Proof.
  intros Hall a b Ha Hb. rewrite Forall_forall in Hall.
  destruct (comp_readable a b (Hall a Ha) (Hall b Hb)) as [v Hv].
  pose proof (comp_cases a b) as Hc. rewrite Hv in Hc.
  destruct Hc as [-> _]. exact Hv.
Qed.

Lemma sort_readable l :
  Forall readable l ->
  exists l', std_sort comp l = inr l' /\ Permutation l l' /\ sorted_by order l'.
Proof.
  intros Hall. apply std_sort_sorted; [ apply comp_agrees, Hall | exact order_swo ].
Qed.

Lemma sort_returned l l' :
  std_sort comp l = inr l' ->
  Permutation l l' /\ sorted_by order l'
  /\ ((2 <= List.length l)%nat -> Forall readable l).
Proof.
  intros H.
  destruct (Nat.le_gt_cases (List.length l) 1) as [Hshort | Hlong].
  - rewrite std_sort_short in H by exact Hshort. injection H as <-.
    split; [ apply Permutation_refl | ].
    split; [ apply sorted_by_short, Hshort | lia ].
  - assert (Hall : Forall readable l).
    { apply Forall_forall. intros a Ha.
      destruct (std_sort_compares comp l l' H Hlong a Ha)
        as [b [v [Hb [Hc | Hc]]]].
      - pose proof (comp_cases a b) as Hab. rewrite Hc in Hab. apply Hab.
      - pose proof (comp_cases b a) as Hba. rewrite Hc in Hba. apply Hba. }
    destruct (sort_readable l Hall) as [l0 [H0 [Hperm Hsorted]]].
    rewrite H in H0. injection H0 as <-.
    split; [ exact Hperm | split; [ exact Hsorted | intros _; exact Hall ] ].
Qed.

Lemma sort_thrown l e :
  std_sort comp l = inl e ->
  (2 <= List.length l)%nat /\ exists a, In a l /\ failing e a.
Proof.
  intros H. split.
  - destruct (Nat.le_gt_cases (List.length l) 1) as [Hshort | Hlong];
      [ | exact Hlong ].
    rewrite std_sort_short in H by exact Hshort. discriminate H.
  - destruct (std_sort_thrown comp l e H) as [a [b [Ha [Hb Hc]]]].
    pose proof (comp_cases a b) as Hab. rewrite Hc in Hab.
    destruct Hab as [Hf | Hf]; [ exists a | exists b ]; split; assumption.
Qed.

Lemma sort_unreadable l :
  (2 <= List.length l)%nat -> ~ Forall readable l ->
  exists e a, std_sort comp l = inl e /\ In a l /\ failing e a.
Proof.
  intros Hlen Hnot. destruct (std_sort comp l) as [e | l'] eqn:H.
  - destruct (sort_thrown l e H) as [_ [a [Ha Hf]]].
    exists e, a. split; [ reflexivity | split; assumption ].
  - destruct (sort_returned l l' H) as [_ [_ Hall]].
    destruct (Hnot (Hall Hlen)).
Qed.

End SortByKey.

Lemma newer_first_readable a b :
  (exists t, last_write_time a = inr t) ->
  (exists t, last_write_time b = inr t) ->
  exists v, newer_first a b = inr v.
Proof.
  intros [ta Ha] [tb Hb]. unfold newer_first. rewrite Ha, Hb.
  eexists. reflexivity.
Qed.

Lemma larger_first_readable a b :
  (exists s, file_size a = inr s) ->
  (exists s, file_size b = inr s) ->
  exists v, larger_first a b = inr v.
Proof.
  intros [sa Ha] [sb Hb]. unfold larger_first. rewrite Ha, Hb.
  eexists. reflexivity.
Qed.

Lemma EntrySorter_nil {Sorter : StdSort} options : EntrySorter options [] = inr [].
Proof.
  unfold EntrySorter.
  destruct (sortByTime options); [ apply std_sort_short; simpl; lia | ].
  destruct (sortBySize options); [ apply std_sort_short; simpl; lia | ].
  reflexivity.
Qed.

Lemma EntrySorter_permutation {Sorter : StdSort} options entries sorted :
  EntrySorter options entries = inr sorted -> Permutation entries sorted.
Proof.
  unfold EntrySorter. intros H.
  destruct (sortByTime options).
  - apply (sort_returned newer_first newer _ (fun e a => last_write_time a = inl e)
             newer_swo newer_first_cases newer_first_readable _ _ H).
  - destruct (sortBySize options).
    + apply (sort_returned larger_first larger _ (fun e a => file_size a = inl e)
               larger_swo larger_first_cases larger_first_readable _ _ H).
    + injection H as <-. apply Permutation_refl.
Qed.

Lemma EntrySorter_by_time {Sorter : StdSort} options entries sorted :
  sortByTime options = true ->
  EntrySorter options entries = inr sorted ->
  time_non_increasing sorted.
Proof.
  unfold EntrySorter. intros -> H. apply sorted_newer.
  apply (sort_returned newer_first newer _ (fun e a => last_write_time a = inl e)
           newer_swo newer_first_cases newer_first_readable _ _ H).
Qed.

(** C1, as the code has it: when [EntrySorter] returns, what comes out is a
    rearrangement of what was collected, under [sortByTime] most recent
    first, otherwise under [sortBySize] largest first, otherwise unchanged;
    with both flags set the time alone is the key. Nothing is promised
    about entries with equal keys. With two entries or more the sort
    returns exactly when the key of every entry can be read; otherwise the
    exception of one of the entries leaves it. *)
Theorem EntrySorter_orders_by_key {Sorter : StdSort} options entries :
  match EntrySorter options entries with
  | inr sorted =>
    Permutation entries sorted
    /\ if sortByTime options then
         time_non_increasing sorted
         /\ ((2 <= List.length entries)%nat -> times_readable entries)
       else if sortBySize options then
         size_non_increasing sorted
         /\ ((2 <= List.length entries)%nat -> sizes_readable entries)
       else sorted = entries
  | inl e =>
    (2 <= List.length entries)%nat
    /\ exists entry, In entry entries
       /\ if sortByTime options then last_write_time entry = inl e
          else sortBySize options = true /\ file_size entry = inl e
  end
  /\ ((if sortByTime options then times_readable entries
       else if sortBySize options then sizes_readable entries else True) ->
      exists sorted, EntrySorter options entries = inr sorted).
Proof.
  unfold EntrySorter, times_readable, sizes_readable.
  destruct (sortByTime options).
  - split.
    + destruct (std_sort newer_first entries) as [e | sorted] eqn:H.
      * apply (sort_thrown newer_first newer _
                 (fun e a => last_write_time a = inl e)
                 newer_first_cases _ _ H).
      * destruct (sort_returned newer_first newer _
                    (fun e a => last_write_time a = inl e)
                    newer_swo newer_first_cases newer_first_readable _ _ H)
          as [Hperm [Hsorted Hall]].
        split; [ exact Hperm | split; [ apply sorted_newer, Hsorted | exact Hall ] ].
    + intros Hall.
      destruct (sort_readable newer_first newer _
                  (fun e a => last_write_time a = inl e)
                  newer_swo newer_first_cases newer_first_readable _ Hall)
        as [sorted [H _]].
      exists sorted. exact H.
  - destruct (sortBySize options).
    + split.
      * destruct (std_sort larger_first entries) as [e | sorted] eqn:H.
        -- destruct (sort_thrown larger_first larger _
                       (fun e a => file_size a = inl e)
                       larger_first_cases _ _ H) as [Hlen [a [Ha Hf]]].
           split; [ exact Hlen | ]. exists a.
           split; [ exact Ha | split; [ reflexivity | exact Hf ] ].
        -- destruct (sort_returned larger_first larger _
                       (fun e a => file_size a = inl e)
                       larger_swo larger_first_cases larger_first_readable
                       _ _ H) as [Hperm [Hsorted Hall]].
           split; [ exact Hperm
                  | split; [ apply sorted_larger, Hsorted | exact Hall ] ].
      * intros Hall.
        destruct (sort_readable larger_first larger _
                    (fun e a => file_size a = inl e)
                    larger_swo larger_first_cases larger_first_readable _ Hall)
          as [sorted [H _]].
        exists sorted. exact H.
    + split; [ split; [ apply Permutation_refl | reflexivity ] | ].
      intros _. eexists. reflexivity.
Qed.

(** C1, as the specification words it, fails. The sort of the GNU library
    is an insertion sort up to sixteen entries and partitions longer
    ranges: seventeen entries with the same modification time come out in
    another order. And when the time of an entry cannot be read, the
    exception leaves the sort and nothing is ordered. *)
Lemma std_sort_need_not_be_stable :
  map filename Demo.seventeen
  = ["f00"; "f01"; "f02"; "f03"; "f04"; "f05"; "f06"; "f07"; "f08"; "f09";
     "f10"; "f11"; "f12"; "f13"; "f14"; "f15"; "f16"]
  /\ (exists sorted,
         @EntrySorter libstdcxx_sort (set_sortByTime default_options)
                      Demo.seventeen = inr sorted
         /\ libstdcxx_algorithm newer_first Demo.seventeen = Some (inr sorted)
         /\ map filename sorted
            = ["f08"; "f16"; "f15"; "f14"; "f13"; "f12"; "f11"; "f10"; "f09";
               "f00"; "f07"; "f06"; "f05"; "f04"; "f03"; "f02"; "f01"]
         /\ with_time 3600 sorted <> with_time 3600 Demo.seventeen)
  /\ @EntrySorter libstdcxx_sort (set_sortByTime default_options)
                  [Demo.a_txt; Demo.gone; Demo.b_txt]
     = inl (Demo.no_time "gone").
Proof.
  split; [ reflexivity | split ].
  - eexists. split; [ vm_compute; reflexivity | ].
    split; [ vm_compute; reflexivity | ].
    split; [ vm_compute; reflexivity | ].
    vm_compute. discriminate.
  - vm_compute. reflexivity.
Qed.

(* ================================================================== *)
(** ** ParseArguments *)

Lemma last_cons {A : Type} (a d : A) (l : list A) : last (a :: l) d = last l a.
Proof.
  revert a d. induction l as [ | b l IH ]; intros a d; [ reflexivity | ].
  change (last (a :: b :: l) d) with (last (b :: l) d).
  rewrite (IH b d), (IH b a). reflexivity.
Qed.

Lemma eqb_no_dash (arg flag : string) :
  starts_with_dash arg = false -> starts_with_dash flag = true ->
  String.eqb arg flag = false.
Proof.
  intros Ha Hf. apply String.eqb_neq. intros ->. congruence.
Qed.

Lemma ParseArguments_invalid_directory W arg rest options io :
  starts_with_dash arg = false -> IsValidDirectory W arg = inr false ->
  ParseArguments W (arg :: rest) options io
  = ParseArguments W rest options
      (DisplayUsage (put_err ("Invalid directory: " ++ arg ++ endl) io)).
Proof.
  intros Hd Hv. simpl.
  rewrite !(eqb_no_dash arg) by (exact Hd || reflexivity).
  rewrite Hd, Hv. reflexivity.
Qed.

Lemma ParseArguments_directory W args : forall options io io' options',
  ParseArguments W args options io = (io', Returned options') ->
  directory options'
  = last (filter (directory_argument W) args) (directory options).
Proof.
  induction args as [ | arg rest IH ]; intros options io io' options' H.
  - simpl in H. injection H as _ <-. reflexivity.
  - simpl in H. cbn [filter].
    repeat match type of H with
    | (if String.eqb arg ?flag then _ else _) = _ =>
      let E := fresh "E" in
      destruct (String.eqb arg flag) eqn:E;
      [ apply String.eqb_eq in E; subst arg;
        change (directory_argument W flag) with false; cbv iota;
        apply IH in H; exact H | ]
    end.
    destruct (String.eqb arg "--help" || String.eqb arg "-h"
              || String.eqb arg "-?"); [ discriminate H | ].
    destruct (String.eqb arg "--version"); [ discriminate H | ].
    unfold directory_argument at 1.
    destruct (starts_with_dash arg); cbn [negb andb].
    + apply IH in H. exact H.
    + destruct (IsValidDirectory W arg) as [e | [ | ]].
      * discriminate H.
      * rewrite last_cons. apply IH in H. exact H.
      * apply IH in H. exact H.
Qed.

(** C10: when [ParseArguments] returns, the stored directory is the last
    argument that does not start with a dash and names an existing
    directory, or the directory stored before when there is none; unknown
    flags and invalid directories do not count. From the initial options
    this is the directory [main] lists. *)
Theorem ParseArguments_last_directory_wins
        W {Sorter : StdSort} args options io io' options' :
  ParseArguments W args options io = (io', Returned options') ->
  directory options'
  = last (filter (directory_argument W) args) (directory options)
  /\ forall prog, options = default_options -> io = no_output ->
       main W (prog :: args)
       = option_map (fun io1 => (io1, Status 0)) (ListFiles W options' io').
Proof.
  intros H. split.
  - apply ParseArguments_directory with (1 := H).
  - intros prog -> ->. unfold main. simpl tl. rewrite H.
    destruct (ListFiles W options' io'); reflexivity.
Qed.

Lemma ParseArguments_last_directory_wins_witness :
  let args := ["attic"; "ghost"; "-q"; "empty"; "-l"] in
  let io' := DisplayUsage (put_err ("Unknown option: -q" ++ endl)
               (DisplayUsage (put_err ("Invalid directory: ghost" ++ endl)
                                      no_output))) in
  let options' := set_longListing (set_directory "empty" default_options) in
  ParseArguments Demo.world args default_options no_output
  = (io', Returned options')
  /\ (directory options'
      = last (filter (directory_argument Demo.world) args)
             (directory default_options)
      /\ forall prog, default_options = default_options ->
           no_output = no_output ->
           @main Demo.world libstdcxx_sort (prog :: args)
           = option_map (fun io1 => (io1, Status 0))
               (@ListFiles Demo.world libstdcxx_sort options' io')).
Proof.
  intros args io' options'.
  assert (H : ParseArguments Demo.world args default_options no_output
              = (io', Returned options')) by reflexivity.
  split; [ exact H | ].
  exact (@ParseArguments_last_directory_wins Demo.world libstdcxx_sort
           args default_options no_output io' options' H).
Defined.

(** C5, as the code has it: a positional argument that is not an existing
    directory produces one line on [cerr] that names it, then the usage
    text, and leaves the options as they were; given alone, the listing step
    then lists the default directory. *)
Theorem invalid_directory_keeps_default W {Sorter : StdSort} arg :
  starts_with_dash arg = false ->
  IsValidDirectory W arg = inr false ->
  let warned :=
    fun io => DisplayUsage (put_err ("Invalid directory: " ++ arg ++ endl) io) in
  (forall rest options io,
      ParseArguments W (arg :: rest) options io
      = ParseArguments W rest options (warned io))
  /\ forall prog,
      main W [prog; arg]
      = option_map (fun io1 => (io1, Status 0))
          (ListFiles W default_options (warned no_output)).
Proof.
  intros Hd Hv warned. split.
  - intros rest options io. apply ParseArguments_invalid_directory; assumption.
  - intros prog. unfold main. simpl tl.
    rewrite ParseArguments_invalid_directory by assumption. simpl.
    destruct (ListFiles W default_options _); reflexivity.
Qed.

Lemma invalid_directory_keeps_default_witness :
  starts_with_dash "ghost" = false
  /\ IsValidDirectory Demo.world "ghost" = inr false
  /\ forall prog,
      @main Demo.world libstdcxx_sort [prog; "ghost"]
      = option_map (fun io1 => (io1, Status 0))
          (@ListFiles Demo.world libstdcxx_sort default_options
             (DisplayUsage (put_err ("Invalid directory: " ++ "ghost" ++ endl)
                                    no_output))).
Proof.
  split; [ reflexivity | split; [ reflexivity | ] ].
  exact (proj2 (@invalid_directory_keeps_default Demo.world libstdcxx_sort
                  "ghost" eq_refl eq_refl)).
Defined.

(** C5, as the specification words it, fails: after the warning about the
    missing directory the listing step prints the entries of the current
    directory. *)
Lemma missing_directory_argument_still_lists :
  IsValidDirectory Demo.world "ghost" = inr false
  /\ exists io options io1,
      ParseArguments Demo.world ["ghost"] default_options no_output
      = (io, Returned options)
      /\ cerr io = "Invalid directory: ghost" ++ endl
      /\ @ListFiles Demo.world libstdcxx_sort options io = Some io1
      /\ cout io1 = cout io ++ "a  b  sub  " ++ endl.
Proof.
  split; [ reflexivity | ].
  eexists _, _, _.
  split; [ reflexivity | ].
  split; [ reflexivity | ].
  split; reflexivity.
Qed.

(* ================================================================== *)
(** ** ListFiles: a directory that cannot be enumerated *)

Lemma occurs_in_wrap (s t pre post : string) :
  occurs_in s t -> occurs_in s (pre ++ t ++ post).
Proof.
  intros [a [b ->]]. exists (pre ++ a), (b ++ post).
  rewrite !append_assoc. reflexivity.
Qed.

(** C6: when the directory cannot be enumerated, [ListFiles] writes the one
    line "Error: " followed by [what()] to [cerr], which names the path and
    the cause, writes nothing to [cout], and returns; [main] then ends with
    status 0. *)
Theorem ListFiles_directory_unavailable
        W {Sorter : StdSort} options io e :
  library_conforms W ->
  directory_iterator W (directory options) = inl e ->
  let diagnostic := "Error: " ++ what W e ++ endl in
  ListFiles W options io = Some (put_err diagnostic io)
  /\ cout (put_err diagnostic io) = cout io
  /\ occurs_in (directory options) diagnostic
  /\ occurs_in (code_message e) diagnostic
  /\ forall argv io0,
      ParseArguments W (tl argv) default_options no_output
      = (io0, Returned options) ->
      main W argv = Some (put_err diagnostic io0, Status 0).
Proof.
  intros HW He diagnostic. unfold ListFiles. rewrite He.
  split; [ reflexivity | ].
  split; [ reflexivity | ].
  split.
  - rewrite <- (iterator_error_path W HW _ _ He).
    apply occurs_in_wrap, what_has_path, HW.
  - split.
    + apply occurs_in_wrap, what_has_cause, HW.
    + intros argv io0 Hparse. unfold main, ListFiles.
      rewrite Hparse, He. reflexivity.
Qed.

Lemma ListFiles_directory_unavailable_witness :
  let options := set_directory "ghost" default_options in
  let diagnostic :=
    "Error: " ++ what Demo.world (Demo.not_found "ghost") ++ endl in
  library_conforms Demo.world
  /\ directory_iterator Demo.world (directory options)
     = inl (Demo.not_found "ghost")
  /\ @ListFiles Demo.world libstdcxx_sort options no_output
     = Some (put_err diagnostic no_output).
Proof.
  intros options diagnostic.
  split; [ exact demo_world_conforms | ].
  split; [ reflexivity | ].
  exact (proj1 (@ListFiles_directory_unavailable Demo.world libstdcxx_sort
                  options no_output (Demo.not_found "ghost")
                  demo_world_conforms eq_refl)).
Defined.

(* ================================================================== *)
(** ** The layouts *)

Lemma flat_app (l1 l2 : list string) : flat (l1 ++ l2)%list = flat l1 ++ flat l2.
Proof.
  induction l1 as [ | s l1 IH ]; simpl; [ reflexivity | ].
  rewrite IH, append_assoc. reflexivity.
Qed.

Lemma streams_eta (io : Streams) :
  {| cout := cout io ++ ""; cerr := cerr io ++ "" |} = io.
Proof. destruct io; simpl. rewrite !append_nil_r. reflexivity. Qed.

Lemma display_entry_mode W options n io entry :
  multiColumn options = false ->
  display_entry W options n io entry
  = match show W (select_mode options) n entry with
    | Line text => (put_out text io, None)
    | Warning text => (put_err text io, None)
    | Failure text e => (put_out text io, Some e)
    end.
Proof.
  intros Hm. unfold display_entry, select_mode, long_entry, show. rewrite Hm.
  destruct (longListing options).
  - destruct (last_write_time entry) as [e | ftime].
    + rewrite put_out_nil. reflexivity.
    + destruct (localtime_s W (to_time_t W n ftime)) as [t | ];
        [ | reflexivity ].
      destruct (file_size entry) as [e | size]; [ reflexivity | ].
      unfold long_line, type_indicator, size_field.
      rewrite put_out_put_out. reflexivity.
  - destruct (oneColumn options); reflexivity.
Qed.

Lemma display_loop_mode W options entries : forall n io,
  multiColumn options = false ->
  display_loop W options n entries io
  = ({| cout := cout io ++ lines_of W (select_mode options) n entries;
        cerr := cerr io ++ warnings_of W (select_mode options) n entries |},
     failure_of W (select_mode options) n entries).
Proof.
  induction entries as [ | entry rest IH ]; intros n io Hm.
  - simpl. rewrite streams_eta. reflexivity.
  - cbn [display_loop lines_of warnings_of failure_of].
    rewrite display_entry_mode by exact Hm.
    destruct (show W (select_mode options) n entry) as [text | text | text e].
    + rewrite IH by exact Hm. unfold put_out. simpl.
      rewrite append_assoc. reflexivity.
    + rewrite IH by exact Hm. unfold put_err. simpl.
      rewrite append_assoc. reflexivity.
    + unfold put_out. rewrite append_nil_r. reflexivity.
Qed.

Lemma list_plain_mode W options entries io :
  multiColumn options = false ->
  Some (list_plain W options entries io)
  = render W (select_mode options) options (inr entries) io.
Proof.
  intros Hm. unfold list_plain. rewrite display_loop_mode by exact Hm.
  unfold render.
  assert (Hmode : select_mode options <> Grid).
  { unfold select_mode. rewrite Hm.
    destruct (longListing options); destruct (oneColumn options);
      discriminate. }
  assert (Hnl : (if negb (oneColumn options) then endl else "")
                = trailing_newline (select_mode options) options
                \/ (longListing options = false /\ oneColumn options = true)).
  { unfold select_mode, trailing_newline. rewrite Hm.
    destruct (longListing options); destruct (oneColumn options); auto. }
  destruct (failure_of W (select_mode options) 0 entries) as [e | ].
  - destruct (select_mode options); try congruence;
      unfold report, put_err; simpl; rewrite append_assoc; reflexivity.
  - assert (Hout : (if negb (oneColumn options)
                    then put_out endl
                           {| cout := cout io
                                ++ lines_of W (select_mode options) 0 entries;
                              cerr := cerr io
                                ++ warnings_of W (select_mode options) 0
                                     entries |}
                    else {| cout := cout io
                                ++ lines_of W (select_mode options) 0 entries;
                            cerr := cerr io
                                ++ warnings_of W (select_mode options) 0
                                     entries |})
                   = {| cout := cout io
                          ++ lines_of W (select_mode options) 0 entries
                          ++ trailing_newline (select_mode options) options;
                        cerr := cerr io
                          ++ warnings_of W (select_mode options) 0 entries |}).
    { unfold select_mode, trailing_newline. rewrite Hm.
      destruct (longListing options); destruct (oneColumn options);
        unfold put_out; simpl; rewrite ?append_nil_r, ?append_assoc;
        reflexivity. }
    rewrite Hout.
    destruct (select_mode options); try congruence; reflexivity.
Qed.

Lemma ListFiles_as_render W {Sorter : StdSort} options children io :
  directory_iterator W (directory options) = inr children ->
  ListFiles W options io
  = render W (select_mode options) options
      (EntrySorter options (collect options children)) io.
Proof.
  intros Hdir. unfold ListFiles. rewrite Hdir.
  destruct (EntrySorter options (collect options children)) as [e | entries].
  - reflexivity.
  - destruct (multiColumn options) eqn:Hm.
    + unfold select_mode. rewrite Hm. reflexivity.
    + apply list_plain_mode, Hm.
Qed.

(** C3, as the code has it: the layout is chosen by the precedence grid,
    long, one-column, default, and under [multiColumn] the grid alone is
    printed, whatever the other layout flags are; the listing is that of the
    chosen mode, where the long listing ends with a newline only when
    [oneColumn] is not set. An exception thrown by the sort leaves only the
    line of the handler. *)
Theorem ListFiles_renders_selected_mode
        W {Sorter : StdSort} options children io :
  directory_iterator W (directory options) = inr children ->
  let sorted := EntrySorter options (collect options children) in
  ListFiles W options io = render W (select_mode options) options sorted io
  /\ forall long one entries,
      sorted = inr entries ->
      ListFiles W (mk_options long (directoriesOnly options)
                              (sortByTime options) (sortBySize options)
                              one true (directory options)) io
      = list_grid W entries io.
Proof.
  intros Hdir sorted. split.
  - apply ListFiles_as_render, Hdir.
  - intros long one entries Hs. unfold ListFiles. cbn [directory multiColumn].
    rewrite Hdir.
    change (EntrySorter _ (collect _ children)) with sorted.
    rewrite Hs. reflexivity.
Qed.

Lemma ListFiles_renders_selected_mode_witness :
  let options := set_oneColumn (set_longListing default_options) in
  directory_iterator Demo.world (directory options)
  = inr [Demo.a_txt; Demo.b_txt; Demo.sub]
  /\ @ListFiles Demo.world libstdcxx_sort options no_output
     = render Demo.world (select_mode options) options
         (@EntrySorter libstdcxx_sort options
            (collect options [Demo.a_txt; Demo.b_txt; Demo.sub])) no_output.
Proof.
  intros options. split; [ reflexivity | ].
  exact (proj1 (@ListFiles_renders_selected_mode Demo.world libstdcxx_sort
                  options [Demo.a_txt; Demo.b_txt; Demo.sub] no_output
                  eq_refl)).
Defined.

(** C3, as the specification words it, fails: the listing is not a function
    of the chosen mode. With [longListing] the mode is the long listing
    whether or not [oneColumn] is set, yet [oneColumn] removes the closing
    newline. *)
Lemma listing_not_determined_by_mode :
  ~ exists mode_listing :
      World -> LayoutMode -> Result (list directory_entry) -> Streams
      -> option Streams,
      forall W (Sorter : StdSort) options children io,
        directory_iterator W (directory options) = inr children ->
        ListFiles W options io
        = mode_listing W (select_mode options)
            (EntrySorter options (collect options children)) io.
Proof.
  intros [mode_listing H].
  pose (long_only := set_longListing (set_directory "empty" default_options)).
  pose (long_and_one := set_oneColumn long_only).
  pose proof (H Demo.world libstdcxx_sort long_only [] no_output eq_refl) as H1.
  pose proof (H Demo.world libstdcxx_sort long_and_one [] no_output eq_refl)
    as H2.
  change (select_mode long_and_one) with (select_mode long_only) in H2.
  change (collect long_and_one []) with (@nil directory_entry) in H2.
  change (collect long_only []) with (@nil directory_entry) in H1.
  rewrite (@EntrySorter_nil libstdcxx_sort long_and_one) in H2.
  rewrite (@EntrySorter_nil libstdcxx_sort long_only) in H1.
  rewrite <- H1 in H2. vm_compute in H2. discriminate.
Qed.

(* ================================================================== *)
(** ** The long listing *)

Lemma digit_is_digit d : 0 <= d <= 9 -> is_digit (digit d) = true.
Proof.
  intros Hd.
  assert (H : d = 0 \/ d = 1 \/ d = 2 \/ d = 3 \/ d = 4 \/ d = 5 \/ d = 6
              \/ d = 7 \/ d = 8 \/ d = 9) by lia.
  repeat (destruct H as [-> | H]; [ reflexivity | ]). subst d. reflexivity.
Qed.

Lemma is_digit_tens z : 0 <= z <= 99 -> is_digit (digit (z / 10)) = true.
Proof. intros Hz. apply digit_is_digit. Z.div_mod_to_equations. lia. Qed.

Lemma is_digit_units z : 0 <= z <= 99 -> is_digit (digit (z mod 10)) = true.
Proof. intros Hz. apply digit_is_digit. Z.div_mod_to_equations. lia. Qed.

Lemma years_have_four_digits :
  forallb (fun n => four_digits (decimal_Z (1000 + Z.of_nat n)))
          (seq 0 (Z.to_nat 9000)) = true.
Proof. vm_compute. reflexivity. Qed.

Lemma year_four_digits y : 1000 <= y <= 9999 -> four_digits (decimal_Z y) = true.
Proof.
  intros Hy. pose proof years_have_four_digits as H.
  rewrite forallb_forall in H. specialize (H (Z.to_nat (y - 1000))).
  replace (1000 + Z.of_nat (Z.to_nat (y - 1000))) with y in H by lia.
  apply H. apply in_seq. lia.
Qed.

Lemma timestamp_of_digits y1 y2 y3 y4 m1 m2 d1 d2 h1 h2 n1 n2 s1 s2 :
  forallb is_digit [y1; y2; y3; y4; m1; m2; d1; d2; h1; h2; n1; n2; s1; s2]
  = true ->
  timestamp_shape
    (String y1 (String y2 (String y3 (String y4 EmptyString))) ++ "-"
     ++ String m1 (String m2 EmptyString) ++ "-"
     ++ String d1 (String d2 EmptyString) ++ " "
     ++ String h1 (String h2 EmptyString) ++ ":"
     ++ String n1 (String n2 EmptyString) ++ ":"
     ++ String s1 (String s2 EmptyString)) = true.
Proof.
  intros H. unfold timestamp_shape. cbn [append list_ascii_of_string].
  rewrite H. reflexivity.
Qed.

Lemma put_time_shape t : calendar_time t -> timestamp_shape (put_time t) = true.
Proof.
  intros [Hs Hm Hh Hd Hmo Hy]. unfold put_time.
  pose proof (year_four_digits _ Hy) as Hyear.
  destruct (decimal_Z (1900 + tm_year t)) as [ | a [ | b [ | c [ | d [ | ] ] ] ] ];
    try discriminate Hyear.
  unfold four_digits in Hyear.
  apply andb_prop in Hyear as [Hyear Hd4].
  apply andb_prop in Hyear as [Hyear Hd3].
  apply andb_prop in Hyear as [Hd1 Hd2].
  unfold two_digits. apply timestamp_of_digits. cbn [forallb].
  rewrite Hd1, Hd2, Hd3, Hd4.
  rewrite !is_digit_tens, !is_digit_units by lia. reflexivity.
Qed.

Lemma size_field_spaces size :
  size_field size
  = spaces (10 - String.length (decimal size)) ++ decimal size.
Proof.
  unfold size_field, setw_right, fill_count. f_equal. f_equal. lia.
Qed.

Lemma size_field_width size :
  String.length (size_field size)
  = Nat.max 10 (String.length (decimal size)).
Proof.
  rewrite size_field_spaces, length_append, length_spaces. lia.
Qed.

(** The entries after a stretch that throws nothing are numbered on from
    its length. *)
Lemma shown_app W mode l1 : forall n l2,
  failure_of W mode n l1 = None ->
  lines_of W mode n (l1 ++ l2)%list
  = lines_of W mode n l1 ++ lines_of W mode (n + List.length l1) l2
  /\ warnings_of W mode n (l1 ++ l2)%list
     = warnings_of W mode n l1 ++ warnings_of W mode (n + List.length l1) l2
  /\ failure_of W mode n (l1 ++ l2)%list
     = failure_of W mode (n + List.length l1) l2.
Proof.
  induction l1 as [ | entry rest IH ]; intros n l2 Hf.
  - simpl. rewrite Nat.add_0_r. auto.
  - cbn [app lines_of warnings_of failure_of List.length] in *.
    rewrite Nat.add_succ_r.
    destruct (show W mode n entry) as [text | text | text e];
      [ | | discriminate Hf ];
      destruct (IH (S n) l2 Hf) as [Hl [Hw Hx]];
      cbn [Nat.add] in Hl, Hw, Hx; rewrite Hl, Hw, Hx, ?append_assoc; auto.
Qed.

Lemma show_long_line W n entry ftime size t :
  last_write_time entry = inr ftime ->
  localtime_s W (to_time_t W n ftime) = Some t ->
  file_size entry = inr size ->
  show W Long n entry = Line (long_line entry size t).
Proof. intros Ht Hc Hs. unfold show. rewrite Ht, Hc, Hs. reflexivity. Qed.


(** With clocks that are read at the same instant and times within the
    range of the tick counter, the time shown is the file time in whole
    seconds. *)
Lemma to_time_t_steady W n ftime now :
  clocks_now W n = (now, now) ->
  - 2 ^ 63 <= ftime - now < 2 ^ 63 ->
  - 2 ^ 63 <= ftime < 2 ^ 63 ->
  to_time_t W n ftime = Z.quot ftime (ticks_per_second W).
Proof.
  intros Hc H1 H2. unfold to_time_t. rewrite Hc.
  assert (Hid : forall z, - 2 ^ 63 <= z < 2 ^ 63 -> to_int64 z = z).
  { intros z Hz. unfold to_int64.
    rewrite Z.mod_small by lia. lia. }
  rewrite (Hid (ftime - now)) by exact H1.
  replace (ftime - now + now) with ftime by lia.
  rewrite (Hid ftime) by exact H2. reflexivity.
Qed.

(** C4, as the code has it: in the long listing the lines follow the sorted
    order, most recent first under [sortByTime], up to the first entry whose
    time or size cannot be read; an entry that the loop reaches, whose time
    and size can be read and whose time converts, contributes exactly the
    line made of the type indicator, the size right-justified in at least
    ten characters, a space, the time as YYYY-MM-DD HH:MM:SS, a space and
    the name, right after what the entries before it contributed. The time
    shown is the file time shifted by the two clocks as they are read at
    that entry, in whole seconds. *)
Theorem long_listing_line_format
        W {Sorter : StdSort} options children sorted io :
  directory_iterator W (directory options) = inr children ->
  multiColumn options = false ->
  longListing options = true ->
  EntrySorter options (collect options children) = inr sorted ->
  (exists io1, ListFiles W options io = Some io1
     /\ cout io1 = cout io ++ lines_of W Long 0 sorted
                   ++ match failure_of W Long 0 sorted with
                      | None => if oneColumn options then "" else endl
                      | Some _ => ""
                      end)
  /\ (if sortByTime options then time_non_increasing sorted
      else Permutation (collect options children) sorted)
  /\ forall pre entry post ftime size t,
       sorted = (pre ++ entry :: post)%list ->
       failure_of W Long 0 pre = None ->
       last_write_time entry = inr ftime ->
       file_size entry = inr size ->
       localtime_s W (to_time_t W (List.length pre) ftime) = Some t ->
       lines_of W Long 0 sorted
       = lines_of W Long 0 pre
         ++ ((if is_directory entry then "d" else "-") ++ size_field size
             ++ " " ++ put_time t ++ " " ++ filename entry ++ endl)
         ++ lines_of W Long (S (List.length pre)) post
       /\ size_field size
          = spaces (10 - String.length (decimal size)) ++ decimal size
       /\ (10 <= String.length (size_field size))%nat
       /\ (calendar_time t -> timestamp_shape (put_time t) = true)
       /\ (forall now,
             clocks_now W (List.length pre) = (now, now) ->
             - 2 ^ 63 <= ftime - now < 2 ^ 63 ->
             - 2 ^ 63 <= ftime < 2 ^ 63 ->
             to_time_t W (List.length pre) ftime
             = Z.quot ftime (ticks_per_second W)).
Proof.
  intros Hdir Hm Hl Hsorted. split; [ | split ].
  - rewrite (ListFiles_as_render W options children io Hdir), Hsorted.
    unfold select_mode. rewrite Hm, Hl. unfold render.
    destruct (failure_of W Long 0 sorted) as [e | ];
      eexists; (split; [ reflexivity | ]); simpl;
      rewrite ?append_nil_r; reflexivity.
  - destruct (sortByTime options) eqn:Ht.
    + apply (EntrySorter_by_time options _ _ Ht Hsorted).
    + apply (EntrySorter_permutation options _ _ Hsorted).
  - intros pre entry post ftime size t -> Hpre Htime Hsize Hconv.
    split; [ | split; [ | split; [ | split ] ] ].
    + destruct (shown_app W Long pre 0 (entry :: post) Hpre) as [Hlines _].
      rewrite Hlines. cbn [Nat.add lines_of].
      rewrite (show_long_line W _ entry ftime size t Htime Hconv Hsize).
      unfold long_line, type_indicator. rewrite !append_assoc. reflexivity.
    + apply size_field_spaces.
    + rewrite size_field_width. lia.
    + apply put_time_shape.
    + intros now. apply to_time_t_steady.
Qed.

Lemma long_listing_line_format_witness :
  let options := set_sortByTime (set_longListing default_options) in
  let children := [Demo.a_txt; Demo.b_txt; Demo.sub] in
  let sorted := [Demo.sub; Demo.a_txt; Demo.b_txt] in
  directory_iterator Demo.world (directory options) = inr children
  /\ multiColumn options = false
  /\ longListing options = true
  /\ @EntrySorter libstdcxx_sort options (collect options children)
     = inr sorted
  /\ exists io1,
      @ListFiles Demo.world libstdcxx_sort options no_output = Some io1
      /\ cout io1
         = cout no_output ++ lines_of Demo.world Long 0 sorted
           ++ match failure_of Demo.world Long 0 sorted with
              | None => if oneColumn options then "" else endl
              | Some _ => ""
              end.
Proof.
  intros options children sorted.
  split; [ reflexivity | ].
  split; [ reflexivity | ].
  split; [ reflexivity | ].
  split; [ vm_compute; reflexivity | ].
  exact (proj1 (@long_listing_line_format Demo.world libstdcxx_sort options
                  children sorted no_output eq_refl eq_refl eq_refl eq_refl)).
Defined.

(** C4, as the specification words it, fails. In [mixed] the time of the
    directory [dir] converts, yet its line is only the type indicator: its
    size cannot be read, the listing ends there, and [b], whose time
    converts too, gets no line. And the time shown is not the modification
    time alone: two files written at the same instant are shown a second
    apart when the clocks drift between the two readings. *)
Lemma long_listing_stops_at_unreadable_size :
  (let options := set_longListing (set_directory "mixed" default_options) in
   exists t1 t2 io1,
     directory_iterator Demo.world (directory options)
     = inr [Demo.a_txt; Demo.dir; Demo.b_txt]
     /\ localtime_s Demo.world (to_time_t Demo.world 1 7200) = Some t1
     /\ localtime_s Demo.world (to_time_t Demo.world 2 3600) = Some t2
     /\ @ListFiles Demo.world libstdcxx_sort options no_output = Some io1
     /\ cout io1 = "-        10 1970-01-01 01:00:00 a" ++ endl ++ "d"
     /\ cerr io1
        = "Error: filesystem error: cannot get file size: Is a directory [dir]"
          ++ endl)
  /\ exists io1,
      directory_iterator Demo.drifting_world "."
      = inr [Demo.file "a" 10 3600000; Demo.file "b" 20 3600000]
      /\ @ListFiles Demo.drifting_world libstdcxx_sort
           (set_longListing default_options) no_output = Some io1
      /\ cout io1 = "-        10 1970-01-01 01:00:00 a" ++ endl
                    ++ "-        20 1970-01-01 00:59:59 b" ++ endl ++ endl.
Proof.
  split.
  - eexists _, _, _.
    split; [ reflexivity | ].
    split; [ vm_compute; reflexivity | ].
    split; [ vm_compute; reflexivity | ].
    split; [ vm_compute; reflexivity | ].
    split; vm_compute; reflexivity.
  - eexists.
    split; [ reflexivity | ].
    split; [ vm_compute; reflexivity | ].
    vm_compute; reflexivity.
Qed.



(* ================================================================== *)
(** ** The closing newline *)

Lemma names_then_separator (sep : string) (names : list string) :
  names <> [] ->
  flat (map (fun n => n ++ sep) names) = String.concat sep names ++ sep.
Proof.
  induction names as [ | n rest IH ]; intros Hne; [ congruence | ].
  destruct rest as [ | m rest ].
  - simpl. rewrite append_nil_r. reflexivity.
  - change (flat (map (fun n => n ++ sep) (n :: m :: rest)))
      with ((n ++ sep) ++ flat (map (fun n => n ++ sep) (m :: rest))).
    rewrite IH by discriminate.
    change (String.concat sep (n :: m :: rest))
      with (n ++ sep ++ String.concat sep (m :: rest)).
    rewrite !append_assoc. reflexivity.
Qed.

Lemma lines_of_names W mode (sep : string) entries : forall n,
  (forall k entry, show W mode k entry = Line (filename entry ++ sep)) ->
  lines_of W mode n entries
  = flat (map (fun name => name ++ sep) (map filename entries))
  /\ warnings_of W mode n entries = ""
  /\ failure_of W mode n entries = None.
Proof.
  intros n H. revert n.
  induction entries as [ | entry rest IH ]; intros n; [ simpl; auto | ].
  cbn [lines_of warnings_of failure_of map flat fold_right].
  rewrite H. destruct (IH (S n)) as [Hl [Hw Hf]].
  rewrite Hl, Hw, Hf. auto.
Qed.

(** C9, as the code has it: outside grid mode the entries are followed by
    one newline exactly when [oneColumn] is not set and no exception ended
    the loop. The default mode prints every name followed by two spaces, so
    a listing that is not empty is the names joined by two spaces, two more
    spaces, and the newline; one-column mode prints every name followed by a
    newline and nothing more; the long listing ends with the newline unless
    [oneColumn] is set as well or a time or a size could not be read. *)
Theorem closing_newline_rule W {Sorter : StdSort} options children entries io :
  directory_iterator W (directory options) = inr children ->
  multiColumn options = false ->
  EntrySorter options (collect options children) = inr entries ->
  let names := map filename entries in
  let closing :=
    match failure_of W (select_mode options) 0 entries with
    | None => if oneColumn options then "" else endl
    | Some _ => ""
    end in
  exists io1,
    ListFiles W options io = Some io1
    /\ cout io1 = cout io ++ lines_of W (select_mode options) 0 entries
                  ++ closing
    /\ match select_mode options with
       | Default =>
         cout io1 = cout io ++ flat (map (fun n => n ++ "  ") names) ++ endl
         /\ (entries <> [] ->
             cout io1 = cout io ++ (String.concat "  " names ++ "  ") ++ endl)
       | OneColumn =>
         cout io1 = cout io ++ flat (map (fun n => n ++ endl) names)
       | Long =>
         cout io1 = cout io ++ lines_of W Long 0 entries ++ closing
         /\ (failure_of W Long 0 entries = None ->
             cout io1 = cout io ++ lines_of W Long 0 entries
                        ++ (if oneColumn options then "" else endl))
       | Grid => False
       end.
Proof.
  intros Hdir Hm Hsorted names closing.
  rewrite (ListFiles_as_render W options children io Hdir), Hsorted.
  unfold closing. clear closing. unfold select_mode. rewrite Hm.
  destruct (longListing options).
  - unfold render, trailing_newline.
    destruct (failure_of W Long 0 entries) as [e | ];
      (eexists; split; [ reflexivity | ]); cbn [cout];
      rewrite ?append_nil_r;
      (split; [ reflexivity | split; [ reflexivity | ] ]);
      [ discriminate | reflexivity ].
  - destruct (oneColumn options) eqn:Ho.
    + destruct (lines_of_names W OneColumn endl entries 0) as [Hl [_ Hf]];
        [ reflexivity | ].
      unfold render, trailing_newline. rewrite Hf, Hl.
      eexists. split; [ reflexivity | ]. cbn [cout].
      rewrite append_nil_r. split; reflexivity.
    + destruct (lines_of_names W Default "  " entries 0) as [Hl [_ Hf]];
        [ reflexivity | ].
      unfold render, trailing_newline. rewrite Hf, Hl.
      eexists. split; [ reflexivity | ]. cbn [cout].
      split; [ reflexivity | ]. split; [ reflexivity | ].
      intros Hne. fold names. rewrite names_then_separator; [ reflexivity | ].
      unfold names. intros Hnil. apply map_eq_nil in Hnil. exact (Hne Hnil).
Qed.

Lemma closing_newline_rule_witness :
  let children := [Demo.a_txt; Demo.b_txt; Demo.sub] in
  directory_iterator Demo.world (directory default_options) = inr children
  /\ multiColumn default_options = false
  /\ @EntrySorter libstdcxx_sort default_options
       (collect default_options children) = inr children
  /\ exists io1,
      @ListFiles Demo.world libstdcxx_sort default_options no_output = Some io1
      /\ cout io1 = "a  b  sub  " ++ endl.
Proof.
  intros children.
  split; [ reflexivity | split; [ reflexivity | split; [ reflexivity | ] ] ].
  destruct (@closing_newline_rule Demo.world libstdcxx_sort default_options
              children children no_output eq_refl eq_refl eq_refl)
    as [io1 [H1 [H2 _]]].
  exists io1. split; [ exact H1 | exact H2 ].
Defined.

(** C9, as the specification words it, fails: the default mode leaves two
    spaces between the last name and the newline, so its output is not the
    names joined by two spaces; the long listing combined with [oneColumn]
    ends without the closing newline; and so does a long listing that an
    unreadable size ends early. *)
Lemma closing_newline_rule_exceptions :
  let long_one :=
    set_oneColumn (set_longListing (set_directory "empty" default_options)) in
  let long_mixed := set_longListing (set_directory "mixed" default_options) in
  (exists io1,
      @ListFiles Demo.world libstdcxx_sort default_options no_output = Some io1
      /\ cout io1 <> String.concat "  " ["a"; "b"; "sub"] ++ endl)
  /\ select_mode long_one = Long
  /\ @ListFiles Demo.world libstdcxx_sort long_one no_output = Some no_output
  /\ select_mode long_mixed = Long
  /\ exists io1,
      @ListFiles Demo.world libstdcxx_sort long_mixed no_output = Some io1
      /\ cout io1 = "-        10 1970-01-01 01:00:00 a" ++ endl ++ "d".
Proof.
  intros long_one long_mixed.
  split; [ | split; [ reflexivity | split; [ reflexivity | split ] ] ].
  - eexists. split; [ reflexivity | ]. vm_compute. discriminate.
  - reflexivity.
  - eexists. split; vm_compute; reflexivity.
Qed.

(* ================================================================== *)
(** ** The grid: integer arithmetic *)

Lemma to_int_range z : int_min <= to_int z <= int_max.
Proof.
  unfold to_int, int_min, int_max.
  pose proof (Z.mod_pos_bound (z + 2 ^ 31) (2 ^ 32) eq_refl). lia.
Qed.

Lemma to_int_id z : int_min <= z <= int_max -> to_int z = z.
Proof.
  unfold to_int, int_min, int_max. intros Hz.
  rewrite Z.mod_small by lia. lia.
Qed.

(** The denominator of line 135 is never zero, whatever the names are. *)
Lemma column_width_nonzero m : 0 <= m <= int_max -> to_int (m + 2) <> 0.
Proof.
  unfold to_int, int_max. intros Hm.
  destruct (Z_lt_le_dec (m + 2 + 2 ^ 31) (2 ^ 32)) as [Hlt | Hge].
  - rewrite Z.mod_small by lia. lia.
  - replace (m + 2 + 2 ^ 31) with ((m + 2 + 2 ^ 31 - 2 ^ 32) + 1 * 2 ^ 32) by lia.
    rewrite Z.mod_add by lia. rewrite Z.mod_small by lia. lia.
Qed.

Lemma maxFilenameLength_from entries : forall m,
  0 <= m <= int_max -> 0 <= fold_left max_step entries m <= int_max.
Proof.
  induction entries as [ | entry rest IH ]; intros m Hm; simpl; [ exact Hm | ].
  apply IH. unfold max_step.
  pose proof (to_int_range (Z.of_nat (String.length (filename entry)))) as Hr.
  destruct (Z.gtb_spec (to_int (Z.of_nat (String.length (filename entry)))) m);
    lia.
Qed.

Lemma maxFilenameLength_range entries :
  0 <= maxFilenameLength entries <= int_max.
Proof.
  apply (maxFilenameLength_from entries 0). unfold int_max. lia.
Qed.

Lemma grid_columns_defined consoleWidth entries :
  exists columns,
    grid_columns consoleWidth (maxFilenameLength entries) = Some columns
    /\ 1 <= columns.
Proof.
  unfold grid_columns, int_div.
  pose proof (column_width_nonzero _ (maxFilenameLength_range entries)) as Hnz.
  apply Z.eqb_neq in Hnz. rewrite Hnz.
  eexists. split; [ reflexivity | ].
  destruct (Z.ltb_spec (to_int (consoleWidth
                        ÷ to_int (maxFilenameLength entries + 2))) 1); lia.
Qed.

Lemma grid_loop_defined maxLen columns entries : forall count io,
  columns <> 0 ->
  exists io1 count1, grid_loop maxLen columns entries count io = Some (io1, count1).
Proof.
  induction entries as [ | entry rest IH ]; intros count io Hc; simpl.
  - eexists _, _. reflexivity.
  - unfold int_rem. apply Z.eqb_neq in Hc. rewrite Hc.
    apply IH. apply Z.eqb_neq, Hc.
Qed.

(** Grid mode never divides by zero. *)
Lemma list_grid_defined W entries io : list_grid W entries io <> None.
Proof.
  unfold list_grid.
  destruct (grid_columns_defined (GetConsoleWidth W) entries)
    as [columns [-> Hc]].
  destruct (grid_loop_defined (maxFilenameLength entries) columns entries 0 io)
    as [io1 [count1 ->]]; [ lia | ].
  unfold int_rem. replace (columns =? 0) with false by (symmetry; lia).
  discriminate.
Qed.

Lemma list_grid_nil W io : list_grid W [] io = Some io.
Proof.
  unfold list_grid.
  destruct (grid_columns_defined (GetConsoleWidth W) []) as [columns [-> Hc]].
  simpl. unfold int_rem. replace (columns =? 0) with false by (symmetry; lia).
  rewrite Z.rem_0_l by lia. reflexivity.
Qed.

(** C8: in grid mode an empty sequence of entries produces no output at
    all, not even a newline. The maximum name length is then 0, the column
    count is clamped to at least 1 for every width, and no listing in grid
    mode divides by zero. *)
Theorem grid_of_empty_directory W {Sorter : StdSort} options children io :
  directory_iterator W (directory options) = inr children ->
  multiColumn options = true ->
  collect options children = [] ->
  ListFiles W options io = Some io
  /\ maxFilenameLength [] = 0
  /\ (forall consoleWidth, exists columns,
         grid_columns consoleWidth 0 = Some columns
         /\ 1 <= columns
         /\ int_rem 0 columns = Some 0)
  /\ forall entries io0, list_grid W entries io0 <> None.
Proof.
  intros Hdir Hm Hnil. split; [ | split; [ reflexivity | split ] ].
  - unfold ListFiles. rewrite Hdir, Hnil, EntrySorter_nil, Hm.
    apply list_grid_nil.
  - intros consoleWidth.
    destruct (grid_columns_defined consoleWidth []) as [columns [Hc Hpos]].
    exists columns. split; [ exact Hc | split; [ exact Hpos | ] ].
    unfold int_rem. replace (columns =? 0) with false by (symmetry; lia).
    rewrite Z.rem_0_l by lia. reflexivity.
  - intros entries io0. apply list_grid_defined.
Qed.

Lemma grid_of_empty_directory_witness :
  let options := set_multiColumn (set_directory "empty" default_options) in
  directory_iterator Demo.world (directory options) = inr []
  /\ multiColumn options = true
  /\ collect options [] = []
  /\ GetConsoleWidth Demo.world = 80
  /\ @ListFiles Demo.world libstdcxx_sort options no_output = Some no_output.
Proof.
  intros options.
  repeat (split; [ reflexivity | ]).
  exact (proj1 (@grid_of_empty_directory Demo.world libstdcxx_sort options []
                  no_output eq_refl eq_refl eq_refl)).
Defined.

(* ================================================================== *)
(** ** The grid: rows *)

Lemma list_eq_dec_nil {A : Type} (l : list A) : {l = []} + {l <> []}.
Proof. destruct l; [ left; reflexivity | right; discriminate ]. Qed.

Lemma rows_of_nil {A : Type} fuel k : @rows_of A fuel k [] = [].
Proof. destruct fuel; reflexivity. Qed.

Lemma concat_rows_of {A : Type} k : forall fuel (l : list A),
  (1 <= k)%nat -> (List.length l <= fuel)%nat ->
  List.concat (rows_of fuel k l) = l.
Proof.
  induction fuel as [ | fuel IH ]; intros l Hk Hlen.
  - destruct l; [ reflexivity | simpl in Hlen; lia ].
  - destruct l as [ | a l ]; [ reflexivity | ].
    cbn [rows_of List.concat]. rewrite IH.
    + apply firstn_skipn.
    + exact Hk.
    + rewrite length_skipn. cbn [List.length] in *. lia.
Qed.

Lemma rows_of_step {A : Type} fuel k (l : list A) :
  l <> [] -> rows_of (S fuel) k l = firstn k l :: rows_of fuel k (skipn k l).
Proof. destruct l; [ congruence | reflexivity ]. Qed.

Lemma length_rows_of {A : Type} k : forall fuel (l : list A),
  (1 <= k)%nat -> (List.length l <= fuel)%nat ->
  Z.of_nat (List.length (rows_of fuel k l))
  = (Z.of_nat (List.length l) + Z.of_nat k - 1) / Z.of_nat k.
Proof.
  induction fuel as [ | fuel IH ]; intros l Hk Hlen.
  - destruct l; [ | simpl in Hlen; lia ]. simpl.
    symmetry. apply Z.div_small. lia.
  - destruct (list_eq_dec_nil l) as [-> | Hne].
    + simpl. symmetry. apply Z.div_small. lia.
    + rewrite rows_of_step by exact Hne.
      assert (Hn : (1 <= List.length l)%nat)
        by (destruct l; [ congruence | simpl; lia ]).
      change (List.length (firstn k l :: rows_of fuel k (skipn k l)))
        with (S (List.length (rows_of fuel k (skipn k l)))).
      rewrite Nat2Z.inj_succ, IH;
        [ | exact Hk | rewrite length_skipn; lia ].
      rewrite length_skipn.
      destruct (Nat.le_gt_cases (List.length l) k) as [Hle | Hgt].
      * replace (List.length l - k)%nat with 0%nat by lia.
        rewrite (Z.div_small (Z.of_nat 0 + Z.of_nat k - 1)) by lia.
        apply Z.div_unique with (r := Z.of_nat (List.length l) - 1); lia.
      * rewrite Nat2Z.inj_sub by lia.
        replace (Z.of_nat (List.length l) + Z.of_nat k - 1)
          with ((Z.of_nat (List.length l) - Z.of_nat k + Z.of_nat k - 1)
                + 1 * Z.of_nat k) by lia.
        rewrite Z.div_add by lia. lia.
Qed.

Lemma rows_of_bounded {A : Type} k : forall fuel (l : list A),
  (1 <= k)%nat ->
  Forall (fun row => (1 <= List.length row <= k)%nat) (rows_of fuel k l).
Proof.
  induction fuel as [ | fuel IH ]; intros l Hk; [ constructor | ].
  destruct l as [ | a l ]; [ constructor | ].
  cbn [rows_of]. constructor; [ | apply IH, Hk ].
  rewrite length_firstn. simpl List.length. lia.
Qed.

(** Every row but the last is full. *)
Lemma rows_of_full {A : Type} k : forall fuel (l : list A) row rest,
  (1 <= k)%nat -> (List.length l <= fuel)%nat ->
  rows_of fuel k l = row :: rest ->
  (rest <> [] -> List.length row = k) /\ rest = rows_of (fuel - 1) k (skipn k l).
Proof.
  intros fuel l row rest Hk Hlen H.
  destruct fuel as [ | fuel ]; [ discriminate H | ].
  destruct l as [ | a l ]; [ discriminate H | ].
  cbn [rows_of] in H. injection H as <- <-.
  replace (S fuel - 1)%nat with fuel by lia. split; [ | reflexivity ].
  intros Hrest. rewrite length_firstn.
  destruct (Nat.le_gt_cases k (List.length (a :: l))) as [Hle | Hgt]; [ lia | ].
  rewrite skipn_all2 in Hrest by lia. rewrite rows_of_nil in Hrest. congruence.
Qed.

(* ================================================================== *)
(** ** The grid: the printing loop *)

Lemma grid_cell_padded (M : nat) entry :
  grid_cell (Z.of_nat M) entry = padded_name M entry.
Proof.
  unfold grid_cell, padded_name, setw_left, fill_count.
  rewrite append_assoc. do 3 f_equal. lia.
Qed.

Lemma grid_loop_app maxLen columns l1 : forall l2 count io,
  grid_loop maxLen columns (l1 ++ l2)%list count io
  = match grid_loop maxLen columns l1 count io with
    | Some (io1, count1) => grid_loop maxLen columns l2 count1 io1
    | None => None
    end.
Proof.
  induction l1 as [ | entry rest IH ]; intros l2 count io; [ reflexivity | ].
  cbn [app grid_loop].
  destruct (int_rem (to_int (count + 1)) columns); [ apply IH | reflexivity ].
Qed.

Section GridLoop.

Variables (M : nat) (columns : Z).
Hypothesis columns_pos : 1 <= columns.

Let cells (l : list directory_entry) : string := flat (map (padded_name M) l).

Lemma int_rem_mod count :
  0 <= count -> int_rem count columns = Some (count mod columns).
Proof.
  intros Hc. unfold int_rem.
  replace (columns =? 0) with false by (symmetry; lia).
  rewrite Z.rem_mod_nonneg by lia. reflexivity.
Qed.

Lemma mod_succ count :
  0 <= count -> count mod columns + 1 < columns ->
  (count + 1) mod columns = count mod columns + 1.
Proof.
  intros Hc Hr. symmetry.
  apply Z.mod_unique with (q := count / columns).
  - pose proof (Z.mod_pos_bound count columns). lia.
  - pose proof (Z.div_mod count columns). lia.
Qed.

Lemma mod_wrap count :
  0 <= count -> count mod columns + 1 = columns ->
  (count + 1) mod columns = 0.
Proof.
  intros Hc Hr. symmetry.
  apply Z.mod_unique with (q := count / columns + 1).
  - lia.
  - pose proof (Z.div_mod count columns). lia.
Qed.

(** Entries that do not reach the end of the row: no newline. *)
Lemma grid_loop_within_row l : forall count io,
  0 <= count ->
  count mod columns + Z.of_nat (List.length l) < columns ->
  count + Z.of_nat (List.length l) <= int_max ->
  grid_loop (Z.of_nat M) columns l count io
  = Some (put_out (cells l) io, count + Z.of_nat (List.length l)).
Proof.
  induction l as [ | entry rest IH ]; intros count io Hc Hroom Hmax.
  - simpl. rewrite put_out_nil, Z.add_0_r. reflexivity.
  - cbn [List.length] in Hroom, Hmax. rewrite Nat2Z.inj_succ in Hroom, Hmax.
    cbn [grid_loop].
    rewrite to_int_id by (unfold int_min; lia).
    rewrite int_rem_mod by lia. rewrite mod_succ by lia.
    replace (count mod columns + 1 =? 0) with false
      by (symmetry; pose proof (Z.mod_pos_bound count columns); lia).
    rewrite IH; [ | lia | rewrite mod_succ by lia; lia | lia ].
    rewrite put_out_put_out, grid_cell_padded.
    cbn [List.length]. rewrite Nat2Z.inj_succ.
    f_equal. f_equal. lia.
Qed.

(** A full row: the newline follows its last entry. *)
Lemma grid_loop_full_row l count io :
  0 <= count -> count mod columns = 0 ->
  Z.of_nat (List.length l) = columns ->
  count + columns <= int_max ->
  grid_loop (Z.of_nat M) columns l count io
  = Some (put_out (cells l ++ endl) io, count + columns).
Proof.
  intros Hc Hrow Hlen Hmax.
  destruct (exists_last (l := l)) as [front [entry ->]].
  { intros ->. simpl in Hlen. lia. }
  rewrite length_app, Nat2Z.inj_add in Hlen. cbn [List.length] in Hlen.
  rewrite grid_loop_app, grid_loop_within_row by lia.
  cbn [grid_loop].
  rewrite to_int_id by (unfold int_min; lia).
  rewrite int_rem_mod by lia.
  assert (Hfront : (count + Z.of_nat (List.length front)) mod columns
                   = Z.of_nat (List.length front)).
  { symmetry. apply Z.mod_unique with (q := count / columns); [ lia | ].
    pose proof (Z.div_mod count columns). lia. }
  rewrite mod_wrap by lia. simpl.
  rewrite !put_out_put_out, grid_cell_padded.
  unfold cells. rewrite map_app, flat_app. simpl.
  rewrite append_nil_r, !append_assoc.
  f_equal. f_equal. lia.
Qed.

(** The loop and the closing test of line 146 print the rows of
    [columns] entries, each with its newline. *)
Lemma grid_loop_rows : forall fuel l count io,
  (List.length l <= fuel)%nat ->
  0 <= count -> count mod columns = 0 ->
  count + Z.of_nat (List.length l) <= int_max ->
  exists io1 count1,
    grid_loop (Z.of_nat M) columns l count io = Some (io1, count1)
    /\ 0 <= count1
    /\ (if negb (count1 mod columns =? 0) then put_out endl io1 else io1)
       = put_out (flat (map (grid_row M) (rows_of fuel (Z.to_nat columns) l)))
                 io.
Proof.
  induction fuel as [ | fuel IH ]; intros l count io Hfuel Hc Hrow Hmax.
  - destruct l; [ | simpl in Hfuel; lia ].
    exists io, count. simpl. rewrite Hrow. simpl. rewrite put_out_nil.
    repeat split; [ exact Hc ].
  - destruct (list_eq_dec_nil l) as [-> | Hne].
    { exists io, count. simpl. rewrite Hrow. simpl. rewrite put_out_nil.
      repeat split; [ exact Hc ]. }
    rewrite rows_of_step by exact Hne.
    assert (Hn : (1 <= List.length l)%nat)
      by (destruct l; [ congruence | simpl; lia ]).
    destruct (Z_lt_le_dec (Z.of_nat (List.length l)) columns) as [Hlt | Hge].
    + rewrite firstn_all2, skipn_all2 by lia.
      rewrite rows_of_nil.
      rewrite grid_loop_within_row by lia.
      eexists _, _. split; [ reflexivity | ]. split; [ lia | ].
      assert (Hmod : (count + Z.of_nat (List.length l)) mod columns
                     = Z.of_nat (List.length l)).
      { symmetry. apply Z.mod_unique with (q := count / columns); [ lia | ].
        pose proof (Z.div_mod count columns). lia. }
      rewrite Hmod.
      replace (Z.of_nat (List.length l) =? 0) with false by (symmetry; lia).
      simpl. rewrite put_out_put_out, append_nil_r. reflexivity.
    + replace (grid_loop (Z.of_nat M) columns l count io)
        with (grid_loop (Z.of_nat M) columns
                (firstn (Z.to_nat columns) l ++ skipn (Z.to_nat columns) l)
                count io)
        by (rewrite firstn_skipn; reflexivity).
      rewrite grid_loop_app.
      assert (Hfirst : Z.of_nat (List.length (firstn (Z.to_nat columns) l))
                       = columns) by (rewrite length_firstn; lia).
      rewrite grid_loop_full_row by lia.
      assert (Hskip : Z.of_nat (List.length (skipn (Z.to_nat columns) l))
                      = Z.of_nat (List.length l) - columns)
        by (rewrite length_skipn; lia).
      destruct (IH (skipn (Z.to_nat columns) l) (count + columns)
                   (put_out (cells (firstn (Z.to_nat columns) l) ++ endl) io))
        as [io1 [count1 [Hloop [Hpos Hout]]]].
      * lia.
      * lia.
      * replace (count + columns) with (count + 1 * columns) by lia.
        rewrite Z.mod_add by lia. exact Hrow.
      * lia.
      * exists io1, count1. split; [ exact Hloop | ]. split; [ exact Hpos | ].
        rewrite Hout, put_out_put_out. reflexivity.
Qed.

End GridLoop.

(* ================================================================== *)
(** ** The grid: column count and rows *)

Lemma max_step_exact entries : forall m,
  0 <= m -> Forall name_fits entries ->
  fold_left max_step entries m = Z.max m (Z.of_nat (maxNameLen entries)).
Proof.
  unfold maxNameLen.
  induction entries as [ | entry rest IH ]; intros m Hm Hfit.
  - simpl. lia.
  - inversion Hfit as [ | e l He Hrest ]; subst. unfold name_fits in He.
    cbn [fold_left map list_max fold_right]. fold (list_max (map (fun e => String.length (filename e)) rest)).
    unfold max_step at 2.
    rewrite to_int_id by (unfold int_min, int_max in *; lia).
    destruct (Z.gtb_spec (Z.of_nat (String.length (filename entry))) m);
      rewrite IH by (assumption || lia); lia.
Qed.

Lemma maxFilenameLength_exact entries :
  Forall name_fits entries ->
  maxFilenameLength entries = Z.of_nat (maxNameLen entries).
Proof.
  intros Hfit. change (maxFilenameLength entries)
    with (fold_left max_step entries 0).
  rewrite max_step_exact by (assumption || lia). lia.
Qed.

Lemma maxNameLen_fits entries :
  Forall name_fits entries -> Z.of_nat (maxNameLen entries) + 2 <= int_max.
Proof.
  unfold maxNameLen. induction 1 as [ | e l He Hl IH ].
  - simpl. unfold int_max. lia.
  - cbn [map list_max fold_right].
    fold (list_max (map (fun e => String.length (filename e)) l)).
    unfold name_fits in He. lia.
Qed.

Lemma maxNameLen_bounds entries :
  Forall (fun e => (String.length (filename e) <= maxNameLen entries)%nat) entries.
Proof.
  unfold maxNameLen.
  pose proof (proj1 (list_max_le (map (fun e => String.length (filename e))
                                      entries) _) (Nat.le_refl _)) as H.
  rewrite Forall_map in H. exact H.
Qed.

Lemma maxNameLen_uniform entries n :
  entries <> [] ->
  Forall (fun e => String.length (filename e) = n) entries ->
  maxNameLen entries = n.
Proof.
  unfold maxNameLen. intros Hne Hall.
  induction Hall as [ | e l He Hl IH ]; [ congruence | ].
  cbn [map list_max fold_right].
  fold (list_max (map (fun e => String.length (filename e)) l)).
  destruct l as [ | e' l' ].
  - simpl. lia.
  - rewrite IH by discriminate. lia.
Qed.

Lemma length_padded_name (M : nat) entry :
  (String.length (filename entry) <= M)%nat ->
  String.length (padded_name M entry) = (M + 2)%nat.
Proof.
  intros Hle. unfold padded_name.
  rewrite !length_append, length_spaces. simpl. lia.
Qed.

Lemma GetConsoleWidth_range W : int_min <= GetConsoleWidth W <= int_max.
Proof.
  unfold GetConsoleWidth. destruct (console_window W) as [ [Left Right] | ].
  - apply to_int_range.
  - unfold int_min, int_max. lia.
Qed.

(** Lines 135-136 compute the column count of the specification: the
    truncating division and the division rounding down differ only where
    the clamp applies. *)
Lemma grid_columns_exact consoleWidth entries :
  int_min <= consoleWidth <= int_max ->
  Forall name_fits entries ->
  grid_columns consoleWidth (maxFilenameLength entries)
  = Some (columnCount consoleWidth entries).
Proof.
  intros Hw Hfit. unfold grid_columns, int_div, columnCount.
  rewrite maxFilenameLength_exact by exact Hfit.
  pose proof (maxNameLen_fits entries Hfit) as Hm.
  set (d := Z.of_nat (maxNameLen entries) + 2) in *.
  assert (Hd : 2 <= d) by (unfold d; lia).
  rewrite to_int_id by (unfold int_min; lia).
  replace (d =? 0) with false by (symmetry; lia).
  assert (Hq : int_min <= consoleWidth ÷ d <= int_max).
  { unfold int_min, int_max in *. Z.to_euclidean_division_equations. nia. }
  rewrite to_int_id by exact Hq. f_equal.
  destruct (Z.ltb_spec (consoleWidth ÷ d) 1);
    Z.to_euclidean_division_equations; nia.
Qed.

Lemma list_grid_rows W entries io :
  fits_int entries ->
  list_grid W entries io
  = Some (put_out
            (flat (map (grid_row (maxNameLen entries))
                       (rows (Z.to_nat (columnCount (GetConsoleWidth W) entries))
                             entries))) io).
Proof.
  intros [Hcount Hfit]. unfold list_grid.
  rewrite grid_columns_exact by (apply GetConsoleWidth_range || exact Hfit).
  rewrite maxFilenameLength_exact by exact Hfit.
  set (columns := columnCount (GetConsoleWidth W) entries).
  assert (Hc : 1 <= columns) by (unfold columns, columnCount; lia).
  destruct (grid_loop_rows (maxNameLen entries) columns Hc
              (List.length entries) entries 0 io)
    as [io1 [count1 [Hloop [Hpos Hout]]]];
    [ lia | lia | apply Z.mod_0_l; lia | lia | ].
  rewrite Hloop, int_rem_mod by lia. f_equal. exact Hout.
Qed.

Lemma rows_of_inner_full {A : Type} k : forall fuel (l : list A) i row,
  (1 <= k)%nat -> (List.length l <= fuel)%nat ->
  nth_error (rows_of fuel k l) i = Some row ->
  (S i < List.length (rows_of fuel k l))%nat ->
  List.length row = k.
Proof.
  induction fuel as [ | fuel IH ]; intros l i row Hk Hlen Hnth Hlast.
  - simpl in Hlast. lia.
  - destruct (list_eq_dec_nil l) as [-> | Hne]; [ simpl in Hlast; lia | ].
    rewrite rows_of_step in Hnth, Hlast by exact Hne.
    destruct (rows_of_full k (S fuel) l (firstn k l)
                (rows_of fuel k (skipn k l)) Hk Hlen
                (rows_of_step fuel k l Hne)) as [Hfull _].
    destruct i as [ | i ].
    + simpl in Hnth. injection Hnth as <-. apply Hfull.
      intros Hnil. rewrite Hnil in Hlast. simpl in Hlast. lia.
    + simpl in Hnth, Hlast. apply (IH (skipn k l) i row Hk); [ | exact Hnth | lia ].
      rewrite length_skipn.
      assert (1 <= List.length l)%nat by (destruct l; [ congruence | simpl; lia ]).
      lia.
Qed.

(** C2: in grid mode the column count is the larger of 1 and the terminal
    width divided, rounding down, by the longest name plus two. Every name
    is printed left-justified in the length of the longest name and followed
    by two spaces; the entries are cut, in order, into rows of that many
    columns, each row followed by a newline, the last row possibly shorter;
    so the number of rows is the entry count divided by the column count,
    rounded up. At width 40 with names of five characters the column width
    is 7 and there are 5 columns. The entries are those the sort
    returned. *)
Theorem grid_layout W {Sorter : StdSort} options children entries io :
  directory_iterator W (directory options) = inr children ->
  multiColumn options = true ->
  EntrySorter options (collect options children) = inr entries ->
  entries <> [] ->
  fits_int entries ->
  let maxLen := maxNameLen entries in
  let columns := Z.max 1 (GetConsoleWidth W / (Z.of_nat maxLen + 2)) in
  let grid := rows (Z.to_nat columns) entries in
  ListFiles W options io
  = Some (put_out (flat (map (grid_row maxLen) grid)) io)
  /\ Forall (fun e =>
       padded_name maxLen e
       = filename e ++ spaces (maxLen - String.length (filename e)) ++ "  "
       /\ String.length (padded_name maxLen e) = (maxLen + 2)%nat) entries
  /\ List.concat grid = entries
  /\ (forall i row, nth_error grid i = Some row ->
        (1 <= List.length row)%nat
        /\ Z.of_nat (List.length row) <= columns
        /\ ((S i < List.length grid)%nat -> Z.of_nat (List.length row) = columns))
  /\ Z.of_nat (List.length grid)
     = (Z.of_nat (List.length entries) + columns - 1) / columns
  /\ (GetConsoleWidth W = 40 ->
      Forall (fun e => String.length (filename e) = 5%nat) entries ->
      Z.of_nat maxLen + 2 = 7 /\ columns = 5).
Proof.
  intros Hdir Hm Hsorted Hne Hfit maxLen columns grid.
  assert (Hc : 1 <= columns) by (unfold columns; lia).
  assert (Hk : (1 <= Z.to_nat columns)%nat) by lia.
  split; [ | split; [ | split; [ | split; [ | split ] ] ] ].
  - unfold ListFiles. rewrite Hdir, Hsorted, Hm. apply list_grid_rows, Hfit.
  - apply Forall_impl with (2 := maxNameLen_bounds entries).
    intros e He. split; [ reflexivity | apply length_padded_name, He ].
  - apply concat_rows_of; [ exact Hk | apply Nat.le_refl ].
  - intros i row Hnth.
    pose proof (rows_of_bounded (Z.to_nat columns) (List.length entries)
                  entries Hk) as Hb.
    rewrite Forall_forall in Hb.
    specialize (Hb row (nth_error_In _ _ Hnth)).
    split; [ lia | split; [ lia | ] ].
    intros Hlast.
    rewrite (rows_of_inner_full (Z.to_nat columns) (List.length entries)
               entries i row Hk (Nat.le_refl _) Hnth Hlast). lia.
  - unfold grid, rows.
    rewrite length_rows_of by (exact Hk || apply Nat.le_refl).
    rewrite Z2Nat.id by lia. reflexivity.
  - intros Hw Hall. unfold columns, maxLen.
    rewrite (maxNameLen_uniform entries 5 Hne Hall), Hw.
    split; reflexivity.
Qed.

Lemma grid_layout_witness :
  let options := set_multiColumn default_options in
  let children := [Demo.a_txt; Demo.b_txt; Demo.sub] in
  directory_iterator Demo.world (directory options) = inr children
  /\ multiColumn options = true
  /\ @EntrySorter libstdcxx_sort options (collect options children)
     = inr children
  /\ children <> []
  /\ fits_int children
  /\ @ListFiles Demo.world libstdcxx_sort options no_output
     = Some (put_out ("a    b    sub  " ++ endl) no_output).
Proof.
  intros options children.
  assert (Hne : children <> []) by discriminate.
  assert (Hfit : fits_int children).
  { split; [ unfold int_max; simpl; lia | ].
    repeat (apply Forall_cons; [ unfold name_fits, int_max; simpl; lia | ]).
    apply Forall_nil. }
  split; [ reflexivity | split; [ reflexivity | split; [ reflexivity | ] ] ].
  split; [ exact Hne | split; [ exact Hfit | ] ].
  exact (proj1 (@grid_layout Demo.world libstdcxx_sort options children
                  children no_output eq_refl eq_refl eq_refl Hne Hfit)).
Defined.

(* ================================================================== *)
(** ** ParseArguments: flags, warnings and exits *)

Lemma flag_is_not_exit flag : flag_argument flag = true -> exit_argument flag = false.
Proof.
  unfold flag_argument. intros H.
  repeat (apply orb_prop in H; destruct H as [H | H]);
    apply String.eqb_eq in H; subst flag; reflexivity.
Qed.

Lemma find_existsb {A : Type} (f : A -> bool) (l : list A) :
  find f l = None <-> existsb f l = false.
Proof.
  induction l as [ | a l IH ]; simpl; [ tauto | ].
  destruct (f a); simpl; [ | exact IH ].
  split; discriminate.
Qed.

Lemma find_first {A : Type} (f : A -> bool) (pre : list A) a post :
  existsb f pre = false -> f a = true ->
  find f (pre ++ a :: post)%list = Some a.
Proof.
  induction pre as [ | b pre IH ]; simpl; intros Hpre Ha.
  - rewrite Ha. reflexivity.
  - apply orb_false_elim in Hpre. destruct Hpre as [Hb Hpre].
    rewrite Hb. apply IH; assumption.
Qed.

(** How [ParseArguments] ends is decided by the first argument at which it
    stops. *)
Lemma ParseArguments_outcome W args : forall options io,
  match snd (ParseArguments W args options io) with
  | Returned _ => find (stopping_argument W) args = None
  | Exited code =>
    code = 0
    /\ exists arg, find (stopping_argument W) args = Some arg
                   /\ exit_argument arg = true
  | Terminated e =>
    exists arg, find (stopping_argument W) args = Some arg
                /\ exit_argument arg = false
                /\ checked_argument arg = true
                /\ IsValidDirectory W arg = inl e
  end.
Proof.
  induction args as [ | arg rest IH ]; intros options io; [ reflexivity | ].
  cbn [ParseArguments find].
  repeat match goal with
  | |- context [if String.eqb arg ?flag then _ else _] =>
    let E := fresh "E" in
    destruct (String.eqb arg flag) eqn:E;
    [ apply String.eqb_eq in E; subst arg;
      change (stopping_argument W flag) with false; cbv iota; apply IH | ]
  end.
  assert (Hflag : flag_argument arg = false).
  { unfold flag_argument.
    repeat match goal with
    | H : String.eqb arg _ = false |- _ => rewrite H; clear H
    end. reflexivity. }
  destruct (String.eqb arg "--help" || String.eqb arg "-h"
            || String.eqb arg "-?") eqn:Eh.
  { assert (Hex : exit_argument arg = true)
      by (unfold exit_argument; rewrite Eh; reflexivity).
    assert (Hstop : stopping_argument W arg = true)
      by (unfold stopping_argument; rewrite Hex; reflexivity).
    rewrite Hstop. cbn [snd].
    split; [ reflexivity | ]. exists arg. split; [ reflexivity | exact Hex ]. }
  destruct (String.eqb arg "--version") eqn:Ev.
  { assert (Hex : exit_argument arg = true)
      by (unfold exit_argument; rewrite Eh, Ev; reflexivity).
    assert (Hstop : stopping_argument W arg = true)
      by (unfold stopping_argument; rewrite Hex; reflexivity).
    rewrite Hstop. cbn [snd].
    split; [ reflexivity | ]. exists arg. split; [ reflexivity | exact Hex ]. }
  assert (Hex : exit_argument arg = false)
    by (unfold exit_argument; rewrite Eh, Ev; reflexivity).
  assert (Hstop : stopping_argument W arg
                  = negb (starts_with_dash arg)
                    && match IsValidDirectory W arg with
                       | inl _ => true
                       | inr _ => false
                       end).
  { unfold stopping_argument, throwing_argument, checked_argument.
    rewrite Hex, Hflag. reflexivity. }
  rewrite Hstop.
  destruct (starts_with_dash arg) eqn:Hd; cbn [negb andb]; [ apply IH | ].
  destruct (IsValidDirectory W arg) as [e | [ | ]] eqn:Hv;
    [ | apply IH | apply IH ].
  cbn [snd]. exists arg. split; [ reflexivity | ]. split; [ exact Hex | ].
  split; [ | exact Hv ].
  unfold checked_argument. rewrite Hflag, Hex, Hd. reflexivity.
Qed.

Lemma ParseArguments_app W l1 : forall l2 options io,
  ParseArguments W (l1 ++ l2)%list options io
  = match ParseArguments W l1 options io with
    | (io1, Returned options1) => ParseArguments W l2 options1 io1
    | (io1, Exited code) => (io1, Exited code)
    | (io1, Terminated e) => (io1, Terminated e)
    end.
Proof.
  induction l1 as [ | arg rest IH ]; intros l2 options io; [ reflexivity | ].
  cbn [app ParseArguments].
  repeat match goal with
  | |- context [if String.eqb arg ?flag then _ else _] =>
    destruct (String.eqb arg flag); [ solve [ apply IH | reflexivity ] | ]
  end.
  destruct (String.eqb arg "--help" || String.eqb arg "-h"
            || String.eqb arg "-?"); [ reflexivity | ].
  destruct (String.eqb arg "--version"); [ reflexivity | ].
  destruct (starts_with_dash arg); [ apply IH | ].
  destruct (IsValidDirectory W arg) as [e | [ | ]];
    [ reflexivity | apply IH | apply IH ].
Qed.

(** X1: when [ParseArguments] returns, each of the six flags is set exactly
    when it was set before or its argument occurs somewhere in the list; a
    flag is never cleared, and neither the order nor the repetition of the
    flag arguments matters. *)
Theorem ParseArguments_flags_accumulate W args : forall options io io' options',
  ParseArguments W args options io = (io', Returned options') ->
  longListing options' = longListing options || has_flag "-l" args
  /\ directoriesOnly options' = directoriesOnly options || has_flag "-d" args
  /\ sortByTime options' = sortByTime options || has_flag "-t" args
  /\ sortBySize options' = sortBySize options || has_flag "-s" args
  /\ oneColumn options' = oneColumn options || has_flag "-1" args
  /\ multiColumn options' = multiColumn options || has_flag "-C" args.
Proof.
  unfold has_flag.
  induction args as [ | arg rest IH ]; intros options io io' options' H.
  - simpl in H. injection H as _ <-. simpl. rewrite !orb_false_r.
    repeat split.
  - cbn [ParseArguments] in H. cbn [existsb].
    repeat match type of H with
    | (if String.eqb arg ?flag then _ else _) = _ =>
      let E := fresh "E" in
      destruct (String.eqb arg flag) eqn:E;
      [ apply String.eqb_eq in E; subst arg;
        destruct (IH _ _ _ _ H) as (H1 & H2 & H3 & H4 & H5 & H6);
        cbn in H1, H2, H3, H4, H5, H6 |- *;
        rewrite H1, H2, H3, H4, H5, H6, ?orb_true_r; repeat split | ]
    end.
    cbn [orb].
    destruct (String.eqb arg "--help" || String.eqb arg "-h"
              || String.eqb arg "-?"); [ discriminate H | ].
    destruct (String.eqb arg "--version"); [ discriminate H | ].
    destruct (starts_with_dash arg); [ exact (IH _ _ _ _ H) | ].
    destruct (IsValidDirectory W arg) as [e | [ | ]];
      [ discriminate H | exact (IH _ _ _ _ H) | exact (IH _ _ _ _ H) ].
Qed.

Lemma ParseArguments_flags_accumulate_witness :
  let args := ["-t"; "attic"; "-x"; "-l"; "-t"] in
  let io' := DisplayUsage (put_err ("Unknown option: -x" ++ endl) no_output) in
  let options' :=
    set_longListing (set_directory "attic" (set_sortByTime default_options)) in
  ParseArguments Demo.world args (set_oneColumn default_options) no_output
  = (io', Returned (set_oneColumn options'))
  /\ longListing (set_oneColumn options') = true
  /\ sortByTime (set_oneColumn options') = true
  /\ oneColumn (set_oneColumn options') = true
  /\ multiColumn (set_oneColumn options')
     = multiColumn (set_oneColumn default_options) || has_flag "-C" args.
Proof.
  intros args io' options'.
  assert (H : ParseArguments Demo.world args (set_oneColumn default_options)
                             no_output
              = (io', Returned (set_oneColumn options'))) by reflexivity.
  split; [ exact H | ].
  destruct (ParseArguments_flags_accumulate Demo.world args _ _ _ _ H)
    as (_ & _ & _ & _ & _ & H6).
  repeat (split; [ reflexivity | ]). exact H6.
Defined.

(** X2: how [ParseArguments] ends is decided by the first argument that is
    [--help], [-h], [-?] or [--version], or whose check as a directory
    throws: it leaves through [exit], with status 0, exactly when that
    argument is one of the four; it is left by the exception, which nothing
    catches, exactly when that argument is one whose check throws; and it
    returns to [main] exactly when there is no such argument. *)
Theorem ParseArguments_exits_iff W args options io :
  ((exists io', ParseArguments W args options io = (io', Exited 0))
   <-> exists arg, find (stopping_argument W) args = Some arg
                   /\ exit_argument arg = true)
  /\ ((exists io' e, ParseArguments W args options io = (io', Terminated e))
      <-> exists arg, find (stopping_argument W) args = Some arg
                      /\ exit_argument arg = false)
  /\ ((exists io' options', ParseArguments W args options io
                            = (io', Returned options'))
      <-> find (stopping_argument W) args = None)
  /\ (forall io' code,
        ParseArguments W args options io = (io', Exited code) -> code = 0)
  /\ forall io' e,
      ParseArguments W args options io = (io', Terminated e) ->
      exists arg, find (stopping_argument W) args = Some arg
                  /\ checked_argument arg = true
                  /\ IsValidDirectory W arg = inl e.
Proof.
  pose proof (ParseArguments_outcome W args options io) as H.
  destruct (ParseArguments W args options io) as [io1 [options1 | code | e]];
    cbn [snd] in H.
  - split; [ | split; [ | split; [ | split ] ] ].
    + split; [ intros [io' Heq]; discriminate Heq | ].
      intros [arg [Hf _]]. congruence.
    + split; [ intros [io' [e Heq]]; discriminate Heq | ].
      intros [arg [Hf _]]. congruence.
    + split; [ intros _; exact H | ].
      intros _. exists io1, options1. reflexivity.
    + intros io' code Heq. discriminate Heq.
    + intros io' e Heq. discriminate Heq.
  - destruct H as [-> [arg [Hf Hex]]].
    split; [ | split; [ | split; [ | split ] ] ].
    + split; [ intros _; exists arg; auto | ].
      intros _. exists io1. reflexivity.
    + split; [ intros [io' [e Heq]]; discriminate Heq | ].
      intros [arg' [Hf' Hex']]. congruence.
    + split; [ intros [io' [options' Heq]]; discriminate Heq | ].
      intros Hn. congruence.
    + intros io' code Heq. injection Heq as _ <-. reflexivity.
    + intros io' e Heq. discriminate Heq.
  - destruct H as [arg [Hf [Hex [Hch Hv]]]].
    split; [ | split; [ | split; [ | split ] ] ].
    + split; [ intros [io' Heq]; discriminate Heq | ].
      intros [arg' [Hf' Hex']]. congruence.
    + split; [ intros _; exists arg; auto | ].
      intros _. exists io1, e. reflexivity.
    + split; [ intros [io' [options' Heq]]; discriminate Heq | ].
      intros Hn. congruence.
    + intros io' code Heq. discriminate Heq.
    + intros io' e' Heq. injection Heq as _ <-. exists arg. auto.
Qed.

(** X3: when [ParseArguments] returns, it has written to [cerr] one line
    for every argument that is neither a flag nor a valid directory, in the
    order of the arguments ("Unknown option" for those that start with a
    dash, "Invalid directory" for the others), and to [cout] the usage text
    once for each of them; nothing else is written. *)
Theorem ParseArguments_warnings W args : forall options io io' options',
  ParseArguments W args options io = (io', Returned options') ->
  cerr io' = cerr io
             ++ flat (map rejection_warning (filter (rejected_argument W) args))
  /\ cout io' = cout io
                ++ flat (map (fun _ => usage_text)
                             (filter (rejected_argument W) args)).
Proof.
  induction args as [ | arg rest IH ]; intros options io io' options' H.
  - simpl in H. injection H as <- _. simpl. rewrite !append_nil_r.
    split; reflexivity.
  - cbn [ParseArguments] in H. cbn [filter].
    repeat match type of H with
    | (if String.eqb arg ?flag then _ else _) = _ =>
      let E := fresh "E" in
      destruct (String.eqb arg flag) eqn:E;
      [ apply String.eqb_eq in E; subst arg;
        change (rejected_argument W flag) with false; cbv iota;
        exact (IH _ _ _ _ H) | ]
    end.
    destruct (String.eqb arg "--help" || String.eqb arg "-h"
              || String.eqb arg "-?") eqn:Eh; [ discriminate H | ].
    destruct (String.eqb arg "--version") eqn:Ev; [ discriminate H | ].
    assert (Hrej : rejected_argument W arg
                   = starts_with_dash arg
                     || match IsValidDirectory W arg with
                        | inr false => true
                        | _ => false
                        end).
    { unfold rejected_argument, flag_argument, exit_argument.
      rewrite E, E0, E1, E2, E3, E4, Eh, Ev. reflexivity. }
    rewrite Hrej.
    assert (Hwarn : forall w,
               ParseArguments W rest options (DisplayUsage (put_err w io))
               = (io', Returned options') ->
               cerr io' = cerr io ++ flat (w :: map rejection_warning
                                  (filter (rejected_argument W) rest))
               /\ cout io' = cout io ++ flat (usage_text :: map
                                  (fun _ => usage_text)
                                  (filter (rejected_argument W) rest))).
    { intros w Hw. destruct (IH _ _ _ _ Hw) as [Herr Hout].
      rewrite Herr, Hout. cbn [flat fold_right].
      unfold DisplayUsage, put_out, put_err. simpl cerr. simpl cout.
      rewrite !append_assoc. split; reflexivity. }
    destruct (starts_with_dash arg) eqn:Ed; cbn [orb].
    + cbn [map].
      replace (rejection_warning arg) with ("Unknown option: " ++ arg ++ endl)
        by (unfold rejection_warning; rewrite Ed; reflexivity).
      apply Hwarn, H.
    + destruct (IsValidDirectory W arg) as [e | [ | ]].
      * discriminate H.
      * exact (IH _ _ _ _ H).
      * cbn [map].
        replace (rejection_warning arg)
          with ("Invalid directory: " ++ arg ++ endl)
          by (unfold rejection_warning; rewrite Ed; reflexivity).
        apply Hwarn, H.
Qed.

Lemma ParseArguments_warnings_witness :
  let args := ["-l"; "ghost"; "."; "-q"; "nowhere"] in
  exists io',
    ParseArguments Demo.world args default_options no_output
    = (io', Returned (set_longListing default_options))
    /\ cerr io' = ("Invalid directory: ghost" ++ endl)
                  ++ ("Unknown option: -q" ++ endl)
                  ++ ("Invalid directory: nowhere" ++ endl)
    /\ cout io' = usage_text ++ usage_text ++ usage_text.
Proof.
  intros args. eexists. split; [ reflexivity | ].
  destruct (ParseArguments_warnings Demo.world args default_options no_output
              _ _ eq_refl) as [Herr Hout].
  split; [ exact Herr | exact Hout ].
Defined.

(** X4: parsing a list of arguments is parsing a first part and then, from
    the options and streams it leaves, the rest; when the first part exits
    or is left by an exception, the rest is never looked at. *)
Theorem ParseArguments_in_two_parts W l1 l2 options io io1 :
  (forall options1,
      ParseArguments W l1 options io = (io1, Returned options1) ->
      ParseArguments W (l1 ++ l2)%list options io
      = ParseArguments W l2 options1 io1)
  /\ (forall code,
         ParseArguments W l1 options io = (io1, Exited code) ->
         ParseArguments W (l1 ++ l2)%list options io = (io1, Exited code))
  /\ (forall e,
         ParseArguments W l1 options io = (io1, Terminated e) ->
         ParseArguments W (l1 ++ l2)%list options io = (io1, Terminated e)).
Proof.
  split; [ | split ].
  - intros options1 H. rewrite ParseArguments_app, H. reflexivity.
  - intros code H. rewrite ParseArguments_app, H. reflexivity.
  - intros e H. rewrite ParseArguments_app, H. reflexivity.
Qed.

Lemma last_default_or_in {A : Type} (l : list A) : forall d,
  last l d = d \/ In (last l d) l.
Proof.
  induction l as [ | a l IH ]; intros d; [ left; reflexivity | ].
  rewrite last_cons. destruct (IH a) as [-> | Hin].
  - right. left. reflexivity.
  - right. right. exact Hin.
Qed.

(** X5: the directory that [ParseArguments] hands back is either the one
    stored before or one of the arguments, and in the second case it does
    not start with a dash and named an existing directory when it was
    checked: no invalid path is ever stored. *)
Theorem ParseArguments_stores_valid_directory
        W args options io io' options' :
  ParseArguments W args options io = (io', Returned options') ->
  directory options' = directory options
  \/ (In (directory options') args
      /\ starts_with_dash (directory options') = false
      /\ fs_exists W (directory options') = inr true
      /\ fs_is_directory W (directory options') = inr true).
Proof.
  intros H. apply ParseArguments_directory in H. rewrite H.
  destruct (last_default_or_in (filter (directory_argument W) args)
                               (directory options)) as [Heq | Hin].
  - left. exact Heq.
  - right. apply filter_In in Hin. destruct Hin as [Hin Hdir].
    unfold directory_argument, IsValidDirectory, and_then in Hdir.
    apply andb_prop in Hdir. destruct Hdir as [Hdash Hvalid].
    apply negb_true_iff in Hdash.
    split; [ exact Hin | split; [ exact Hdash | ] ].
    destruct (fs_exists W _) as [e | [ | ]]; try discriminate Hvalid.
    destruct (fs_is_directory W _) as [e | [ | ]]; try discriminate Hvalid.
    split; reflexivity.
Qed.

Lemma ParseArguments_stores_valid_directory_witness :
  let args := ["ghost"; "attic"; "-zzz"] in
  exists io' options',
    ParseArguments Demo.world args default_options no_output
    = (io', Returned options')
    /\ directory options' = "attic"
    /\ (directory options' = directory default_options
        \/ (In (directory options') args
            /\ starts_with_dash (directory options') = false
            /\ fs_exists Demo.world (directory options') = inr true
            /\ fs_is_directory Demo.world (directory options') = inr true)).
Proof.
  intros args. eexists _, _.
  split; [ reflexivity | split; [ reflexivity | ] ].
  exact (ParseArguments_stores_valid_directory Demo.world args default_options
           no_output _ _ eq_refl).
Defined.

(* ================================================================== *)
(** ** GetConsoleWidth and main *)

(** X6: for window coordinates in the range of a [SHORT] the width is
    Right - Left + 1 without any wrap-around, hence at least 1 and at most
    65536 when Left does not exceed Right. *)
Theorem GetConsoleWidth_of_window W Left Right :
  console_window W = Some (Left, Right) ->
  is_short Left -> is_short Right ->
  GetConsoleWidth W = Right - Left + 1
  /\ (Left <= Right -> 1 <= GetConsoleWidth W <= 2 ^ 16).
Proof.
  unfold is_short, GetConsoleWidth. intros -> HL HR.
  assert (Hd : to_int (Right - Left) = Right - Left)
    by (apply to_int_id; unfold int_min, int_max; lia).
  rewrite Hd, to_int_id by (unfold int_min, int_max; lia).
  split; [ reflexivity | lia ].
Qed.

Lemma GetConsoleWidth_of_window_witness :
  console_window Demo.narrow_world = Some (0, 39)
  /\ is_short 0 /\ is_short 39
  /\ GetConsoleWidth Demo.narrow_world = 39 - 0 + 1.
Proof.
  assert (H0 : is_short 0) by (unfold is_short; lia).
  assert (H39 : is_short 39) by (unfold is_short; lia).
  split; [ reflexivity | split; [ exact H0 | split; [ exact H39 | ] ] ].
  exact (proj1 (GetConsoleWidth_of_window Demo.narrow_world 0 39 eq_refl
                  H0 H39)).
Defined.

Lemma ListFiles_defined W {Sorter : StdSort} options io :
  ListFiles W options io <> None.
Proof.
  unfold ListFiles.
  destruct (directory_iterator W (directory options)); [ discriminate | ].
  destruct (EntrySorter options _); [ discriminate | ].
  destruct (multiColumn options); [ apply list_grid_defined | discriminate ].
Qed.

(** X7: whatever the arguments, the file system and the console are,
    [main] never divides by zero and ends in one of two ways: with status 0,
    or by the exception of the directory check of one of its arguments,
    which nothing catches. When no check throws it ends with status 0: a
    directory that cannot be read, an unknown option or an invalid
    directory argument does not show in the exit status. *)
Theorem main_ends_with_status_0_or_uncaught W {Sorter : StdSort} argv :
  exists io ending,
    main W argv = Some (io, ending)
    /\ match ending with
       | Status code => code = 0
       | Uncaught e =>
         exists arg, In arg (tl argv) /\ checked_argument arg = true
                     /\ IsValidDirectory W arg = inl e
       end
    /\ (existsb (throwing_argument W) (tl argv) = false -> ending = Status 0).
Proof.
  unfold main.
  pose proof (ParseArguments_outcome W (tl argv) default_options no_output)
    as Hout.
  destruct (ParseArguments W (tl argv) default_options no_output)
    as [io1 [options1 | code | e]]; cbn [snd] in Hout.
  - pose proof (ListFiles_defined W options1 io1) as Hdef.
    destruct (ListFiles W options1 io1) as [io2 | ]; [ | congruence ].
    exists io2, (Status 0). auto.
  - destruct Hout as [-> _]. exists io1, (Status 0). auto.
  - destruct Hout as [arg [Hf [Hex [Hch Hv]]]].
    apply find_some in Hf. destruct Hf as [Hin _].
    exists io1, (Uncaught e). split; [ reflexivity | split ].
    + exists arg. auto.
    + intros Hnone.
      assert (Hsome : existsb (throwing_argument W) (tl argv) = true).
      { apply existsb_exists. exists arg. split; [ exact Hin | ].
        unfold throwing_argument. rewrite Hch, Hv. reflexivity. }
      congruence.
Qed.

(** X8: the first [--help], [-h], [-?] or [--version] ends the run, when no
    directory check before it throws: [main] prints what the arguments
    before it produced, then the usage text or the version line, lists
    nothing, and ignores every later argument. *)
Theorem help_or_version_ends_the_run W {Sorter : StdSort} prog pre arg post :
  existsb (stopping_argument W) pre = false ->
  exit_argument arg = true ->
  main W (prog :: pre ++ arg :: post)
  = Some (put_out (exit_text arg)
                  (fst (ParseArguments W pre default_options no_output)),
          Status 0).
Proof.
  intros Hpre Harg. unfold main. cbn [tl]. rewrite ParseArguments_app.
  pose proof (ParseArguments_outcome W pre default_options no_output) as Hout.
  apply find_existsb in Hpre.
  destruct (ParseArguments W pre default_options no_output)
    as [io1 [options1 | code | e]]; cbn [snd] in Hout.
  - unfold exit_argument in Harg.
    repeat (apply orb_prop in Harg; destruct Harg as [Harg | Harg]);
      apply String.eqb_eq in Harg; subst arg; reflexivity.
  - destruct Hout as [_ [a [Hf _]]]. congruence.
  - destruct Hout as [a [Hf _]]. congruence.
Qed.

Lemma help_or_version_ends_the_run_witness :
  existsb (stopping_argument Demo.world) ["-l"; "ghost"] = false
  /\ exit_argument "--version" = true
  /\ @main Demo.world libstdcxx_sort
       ("lls" :: ["-l"; "ghost"] ++ "--version" :: ["attic"; "--help"])
     = Some ({| cout := usage_text ++ "lls version 1.0.0" ++ endl;
                cerr := "Invalid directory: ghost" ++ endl |}, Status 0).
Proof.
  split; [ reflexivity | split; [ reflexivity | ] ].
  exact (@help_or_version_ends_the_run Demo.world libstdcxx_sort "lls"
           ["-l"; "ghost"] "--version" ["attic"; "--help"] eq_refl eq_refl).
Defined.

(* ================================================================== *)
(** ** ListFiles: what is listed and where it is written *)


(** X9: under [sortByTime], and under [sortBySize] without it, two or more
    collected entries of which one has a time, or size, that cannot be read
    are not listed at all: the sort is left by the exception of such an
    entry, and [ListFiles] writes the line of the handler to [cerr] and
    nothing to [cout], in every layout. *)
Theorem unreadable_key_leaves_only_the_error
        W {Sorter : StdSort} options children io :
  directory_iterator W (directory options) = inr children ->
  (2 <= List.length (collect options children))%nat ->
  (sortByTime options = true ->
   ~ times_readable (collect options children) ->
   exists e entry,
     In entry (collect options children)
     /\ last_write_time entry = inl e
     /\ ListFiles W options io
        = Some (put_err ("Error: " ++ what W e ++ endl) io))
  /\ (sortByTime options = false -> sortBySize options = true ->
      ~ sizes_readable (collect options children) ->
      exists e entry,
        In entry (collect options children)
        /\ file_size entry = inl e
        /\ ListFiles W options io
           = Some (put_err ("Error: " ++ what W e ++ endl) io)).
Proof.
  intros Hdir Hlen. unfold ListFiles, EntrySorter. rewrite Hdir. split.
  - intros Ht Hnot. rewrite Ht.
    destruct (sort_unreadable newer_first newer _
                (fun e a => last_write_time a = inl e)
                newer_swo newer_first_cases newer_first_readable _ Hlen Hnot)
      as [e [entry [Hs [Hin Hf]]]].
    exists e, entry. rewrite Hs. auto.
  - intros Ht Hs Hnot. rewrite Ht, Hs.
    destruct (sort_unreadable larger_first larger _
                (fun e a => file_size a = inl e)
                larger_swo larger_first_cases larger_first_readable _ Hlen Hnot)
      as [e [entry [Hsort [Hin Hf]]]].
    exists e, entry. rewrite Hsort. auto.
Qed.

Lemma unreadable_key_leaves_only_the_error_witness :
  let options := set_sortByTime (set_directory "stale" default_options) in
  let children := [Demo.a_txt; Demo.gone; Demo.b_txt] in
  directory_iterator Demo.world (directory options) = inr children
  /\ (2 <= List.length (collect options children))%nat
  /\ exists e entry,
      In entry (collect options children)
      /\ last_write_time entry = inl e
      /\ @ListFiles Demo.world libstdcxx_sort options no_output
         = Some (put_err ("Error: " ++ what Demo.world e ++ endl) no_output).
Proof.
  intros options children.
  assert (Hlen : (2 <= List.length (collect options children))%nat)
    by (simpl; lia).
  split; [ reflexivity | split; [ exact Hlen | ] ].
  apply (proj1 (@unreadable_key_leaves_only_the_error Demo.world
                  libstdcxx_sort options children no_output eq_refl Hlen));
    [ reflexivity | ].
  intros Hall. apply Forall_inv_tail, Forall_inv in Hall.
  destruct Hall as [t Ht]. discriminate Ht.
Defined.








(* ================================================================== *)
(** ** The grid: rows and the console width *)

Lemma length_flat_padded (M : nat) row :
  Forall (fun e => (String.length (filename e) <= M)%nat) row ->
  String.length (flat (map (padded_name M) row))
  = (List.length row * (M + 2))%nat.
Proof.
  induction 1 as [ | e l He Hl IH ]; [ reflexivity | ].
  cbn [map flat fold_right List.length].
  change (fold_right String.append "" (map (padded_name M) l))
    with (flat (map (padded_name M) l)).
  rewrite length_append, IH, length_padded_name by exact He. lia.
Qed.

Lemma In_rows_of {A : Type} k : forall fuel (l : list A) row e,
  In row (rows_of fuel k l) -> In e row -> In e l.
Proof.
  induction fuel as [ | fuel IH ]; intros l row e Hrow He; [ destruct Hrow | ].
  destruct l as [ | a l ]; [ destruct Hrow | ].
  cbn [rows_of] in Hrow. destruct Hrow as [<- | Hrow].
  - rewrite <- (firstn_skipn k (a :: l)). apply in_or_app. left. exact He.
  - rewrite <- (firstn_skipn k (a :: l)). apply in_or_app. right.
    apply (IH _ _ _ Hrow He).
Qed.

(** X12: in grid mode, when the longest name and its two spaces fit in the
    console, no row is wider than the console: the text of every row,
    before its newline, has as many characters as the row has entries times
    the column width, which is at most the console width. *)
Theorem grid_rows_fit_the_console
        W {Sorter : StdSort} options children entries io :
  directory_iterator W (directory options) = inr children ->
  multiColumn options = true ->
  EntrySorter options (collect options children) = inr entries ->
  fits_int entries ->
  Z.of_nat (maxNameLen entries) + 2 <= GetConsoleWidth W ->
  let grid := rows (Z.to_nat (columnCount (GetConsoleWidth W) entries)) entries in
  ListFiles W options io
  = Some (put_out (flat (map (grid_row (maxNameLen entries)) grid)) io)
  /\ forall row, In row grid ->
       String.length (flat (map (padded_name (maxNameLen entries)) row))
       = (List.length row * (maxNameLen entries + 2))%nat
       /\ Z.of_nat (String.length
                      (flat (map (padded_name (maxNameLen entries)) row)))
          <= GetConsoleWidth W.
Proof.
  intros Hdir Hm Hsorted Hfit Hwide grid. split.
  - unfold ListFiles. rewrite Hdir, Hsorted, Hm. apply list_grid_rows, Hfit.
  - intros row Hrow.
    set (d := Z.of_nat (maxNameLen entries) + 2) in *.
    set (w := GetConsoleWidth W) in *.
    assert (Hcols : columnCount w entries = w / d).
    { unfold columnCount. fold d.
      assert (1 <= w / d) by (apply Z.div_le_lower_bound; lia). lia. }
    assert (Hlen : String.length
                     (flat (map (padded_name (maxNameLen entries)) row))
                   = (List.length row * (maxNameLen entries + 2))%nat).
    { apply length_flat_padded. apply Forall_forall. intros e He.
      pose proof (maxNameLen_bounds entries) as Hb.
      rewrite Forall_forall in Hb. apply Hb.
      apply (In_rows_of _ _ _ _ _ Hrow He). }
    split; [ exact Hlen | ]. rewrite Hlen.
    assert (Hk : (1 <= Z.to_nat (columnCount w entries))%nat)
      by (unfold columnCount; lia).
    pose proof (rows_of_bounded (Z.to_nat (columnCount w entries))
                  (List.length entries) entries Hk) as Hb.
    rewrite Forall_forall in Hb. specialize (Hb row Hrow).
    rewrite Hcols in Hb.
    pose proof (Z.mul_div_le w d ltac:(unfold d; lia)) as Hmul.
    rewrite Nat2Z.inj_mul, Nat2Z.inj_add. fold d.
    change (Z.of_nat 2) with 2.
    replace (Z.of_nat (maxNameLen entries) + 2) with d by reflexivity.
    assert (Z.of_nat (List.length row) <= w / d) by lia.
    assert (0 <= w / d) by (apply Z.div_pos; unfold d; lia).
    nia.
Qed.

Lemma grid_rows_fit_the_console_witness :
  let options := set_multiColumn default_options in
  let entries := Demo.seven_files in
  directory_iterator Demo.narrow_world (directory options)
  = inr Demo.seven_files
  /\ @EntrySorter libstdcxx_sort options (collect options Demo.seven_files)
     = inr entries
  /\ fits_int entries
  /\ Z.of_nat (maxNameLen entries) + 2 <= GetConsoleWidth Demo.narrow_world
  /\ forall row,
      In row (rows (Z.to_nat (columnCount (GetConsoleWidth Demo.narrow_world)
                                          entries)) entries) ->
      Z.of_nat (String.length
                  (flat (map (padded_name (maxNameLen entries)) row)))
      <= GetConsoleWidth Demo.narrow_world.
Proof.
  intros options entries.
  assert (Hfit : fits_int entries).
  { split; [ unfold int_max; simpl; lia | ].
    unfold entries. simpl.
    repeat (apply Forall_cons; [ unfold name_fits, int_max; simpl; lia | ]).
    apply Forall_nil. }
  assert (Hwide : Z.of_nat (maxNameLen entries) + 2
                  <= GetConsoleWidth Demo.narrow_world)
    by (vm_compute; discriminate).
  split; [ reflexivity | split; [ reflexivity | ] ].
  split; [ exact Hfit | split; [ exact Hwide | ] ].
  intros row Hrow.
  exact (proj2 (proj2 (@grid_rows_fit_the_console Demo.narrow_world
                         libstdcxx_sort options Demo.seven_files entries
                         no_output eq_refl eq_refl eq_refl Hfit Hwide)
                      row Hrow)).
Defined.

Lemma rows_of_one {A : Type} : forall fuel (l : list A),
  (List.length l <= fuel)%nat -> rows_of fuel 1 l = map (fun x => [x]) l.
Proof.
  induction fuel as [ | fuel IH ]; intros l Hlen.
  - destruct l; [ reflexivity | simpl in Hlen; lia ].
  - destruct l as [ | a l ]; [ reflexivity | ].
    cbn [rows_of firstn skipn map]. f_equal. apply IH.
    simpl in Hlen. lia.
Qed.

(** X13: in grid mode, when the longest name and its two spaces do not fit
    in the console (also for a width of zero or below), the column count is
    clamped to 1: every name is printed on a line of its own, padded to the
    longest name, and the lines are then wider than the console. *)
Theorem grid_falls_back_to_one_column
        W {Sorter : StdSort} options children entries io :
  directory_iterator W (directory options) = inr children ->
  multiColumn options = true ->
  EntrySorter options (collect options children) = inr entries ->
  fits_int entries ->
  GetConsoleWidth W < Z.of_nat (maxNameLen entries) + 2 ->
  ListFiles W options io
  = Some (put_out
            (flat (map (fun e => padded_name (maxNameLen entries) e ++ endl)
                       entries)) io).
Proof.
  intros Hdir Hm Hsorted Hfit Hnarrow.
  unfold ListFiles. rewrite Hdir, Hsorted, Hm.
  rewrite list_grid_rows by exact Hfit.
  assert (Hcols : columnCount (GetConsoleWidth W) entries = 1).
  { unfold columnCount.
    assert (GetConsoleWidth W / (Z.of_nat (maxNameLen entries) + 2) < 1)
      by (apply Z.div_lt_upper_bound; lia).
    lia. }
  rewrite Hcols. change (Z.to_nat 1) with 1%nat.
  unfold rows. rewrite rows_of_one by apply Nat.le_refl.
  rewrite map_map. do 3 f_equal.
  unfold grid_row. simpl.
  apply map_ext. intros e. rewrite append_nil_r. reflexivity.
Qed.

Lemma grid_falls_back_to_one_column_witness :
  let options := set_multiColumn default_options in
  let narrow := {| fs_exists := fs_exists Demo.world;
                   fs_is_directory := fs_is_directory Demo.world;
                   directory_iterator := directory_iterator Demo.world;
                   what := what Demo.world;
                   console_window := Some (10, 13);
                   clocks_now := clocks_now Demo.world;
                   ticks_per_second := ticks_per_second Demo.world;
                   localtime_s := localtime_s Demo.world |} in
  let entries := [Demo.a_txt; Demo.b_txt; Demo.sub] in
  @EntrySorter libstdcxx_sort options (collect options entries) = inr entries
  /\ fits_int entries
  /\ GetConsoleWidth narrow < Z.of_nat (maxNameLen entries) + 2
  /\ @ListFiles narrow libstdcxx_sort options no_output
     = Some (put_out ("a    " ++ endl ++ "b    " ++ endl ++ "sub  " ++ endl)
                     no_output).
Proof.
  intros options narrow entries.
  assert (Hfit : fits_int entries).
  { split; [ unfold int_max; simpl; lia | ].
    unfold entries. simpl.
    repeat (apply Forall_cons; [ unfold name_fits, int_max; simpl; lia | ]).
    apply Forall_nil. }
  assert (Hnarrow : GetConsoleWidth narrow < Z.of_nat (maxNameLen entries) + 2)
    by (vm_compute; reflexivity).
  split; [ reflexivity | split; [ exact Hfit | split; [ exact Hnarrow | ] ] ].
  exact (@grid_falls_back_to_one_column narrow libstdcxx_sort options
           entries entries no_output eq_refl eq_refl eq_refl Hfit Hnarrow).
Defined.

(* ================================================================== *)
(** ** Scenarios *)

(** Files [a] (10 bytes) and [b] (20 bytes) under [-s]: [b] comes first. *)
Example largest_first :
  @main Demo.world libstdcxx_sort ["lls"; "-s"]
  = Some (put_out ("b  a  sub  " ++ endl) no_output, Status 0).
Proof. vm_compute. reflexivity. Qed.

(** [-t] and [-l] together: most recent first, one line each. *)
Example long_listing_by_time :
  @main Demo.world libstdcxx_sort ["lls"; "-t"; "-l"]
  = Some (put_out ("d         0 1970-01-01 23:59:59 sub" ++ endl
                   ++ "-        10 1970-01-01 01:00:00 a" ++ endl
                   ++ "-        20 1970-01-01 01:00:00 b" ++ endl
                   ++ endl) no_output, Status 0).
Proof. vm_compute. reflexivity. Qed.

(** A file removed after the directory was read: under [-t] the sort is
    left by the exception and nothing is listed; without a sort flag and
    without [-l] the names are listed as if nothing had happened. *)
Example removed_file :
  @main Demo.world libstdcxx_sort ["lls"; "-t"; "stale"]
  = Some (put_err ("Error: filesystem error: cannot get file time: "
                   ++ "No such file or directory [gone]" ++ endl) no_output,
          Status 0)
  /\ @main Demo.world libstdcxx_sort ["lls"; "stale"]
     = Some (put_out ("a  gone  b  " ++ endl) no_output, Status 0).
Proof. split; vm_compute; reflexivity. Qed.

(** The long listing of [stale] ends at the removed file, before anything
    of its line is written. *)
Example long_listing_of_removed_file :
  @main Demo.world libstdcxx_sort ["lls"; "-l"; "stale"]
  = Some ({| cout := "-        10 1970-01-01 01:00:00 a" ++ endl;
             cerr := "Error: filesystem error: cannot get file time: "
                     ++ "No such file or directory [gone]" ++ endl |},
          Status 0).
Proof. vm_compute. reflexivity. Qed.

(** An argument too long to be looked up: the exception of the check leaves
    [main], and the [--help] after it is never reached. *)
Example unchecked_argument_terminates :
  @main Demo.world libstdcxx_sort ["lls"; Demo.long_name; "--help"]
  = Some (no_output, Uncaught (Demo.name_too_long Demo.long_name)).
Proof. vm_compute. reflexivity. Qed.

(** A size of more than ten digits widens the field. *)
Example wide_size_field :
  size_field 12345678901 = "12345678901"
  /\ size_field 10 = "        10".
Proof. split; reflexivity. Qed.

(** Seven names of five characters on a console of 40 columns: columns of
    7 characters, 5 to a row, so a full row and a row of two. *)
Example grid_at_width_40 :
  GetConsoleWidth Demo.narrow_world = 40
  /\ @ListFiles Demo.narrow_world libstdcxx_sort
       (set_multiColumn default_options) no_output
     = Some (put_out ("file1  file2  file3  file4  file5  " ++ endl
                      ++ "file6  file7  " ++ endl) no_output).
Proof. split; reflexivity. Qed.

(** [--help] ends the run before anything is listed. *)
Example help_exits :
  @main Demo.world libstdcxx_sort ["lls"; "attic"; "--help"; "-l"]
  = Some (put_out usage_text no_output, Status 0).
Proof. reflexivity. Qed.
